(** * PointQuadTree: a bucketed quadtree over axis-aligned regions

    Shallow embedding of [Algos-Test/PointQuadTree.cpp].  The C++ class
    [PointQuadTree<T>] owns a region [boundaries], a bucket [points] and four
    child pointers; [Insert] and [QueryRange] are member functions that work
    on the node in place.  Here a node is a record, a member function takes
    the node and gives back the node it leaves behind, and dereferencing a
    null child pointer is an explicit error.

    Readings of the source where it does not parse as written:
    - lines 104-110 subtract and add [children_size] (a [Vector2]) to a
      coordinate; it is read component-wise, as line 101 spells it out;
    - line 111 [Rect_AABB(child_center_children_size)] is read as
      [Rect_AABB(child_center, children_size)], like lines 102-108;
    - lines 156 and 162 name [results]; the parameter is [result], and the
      [return results;] of the void function is a plain [return;].

    Coordinates are exact integers: the code only adds and subtracts them. *)

From Stdlib Require Import ZArith List Bool Lia Permutation PeanoNat.
Import ListNotations.

Set Implicit Arguments.

Local Open Scope Z_scope.

(** ** Results of member calls *)

(** A call either returns, or dereferences a null child pointer, or runs
    out of the recursion budget given to the model. *)
Inductive outcome (A : Type) : Type :=
| Ok (a : A)
| NullDeref
| OutOfFuel.

Arguments Ok {A} a.
Arguments NullDeref {A}.
Arguments OutOfFuel {A}.

Definition bind {A B : Type} (m : outcome A) (k : A -> outcome B) : outcome B :=
  match m with
  | Ok a => k a
  | NullDeref => NullDeref
  | OutOfFuel => OutOfFuel
  end.

Notation "' p <- m ;; k" := (bind m (fun p => k))
  (at level 61, p pattern, m at next level, right associativity).

(** ** Geometry *)

Record Vector2 : Type := mkVector2 { x : Z; y : Z }.

Record Rect_AABB : Type := mkRect_AABB {
  centerPoint : Vector2;
  halfDimension : Vector2
}.

Definition Vector2_eqb (p q : Vector2) : bool :=
  (x p =? x q) && (y p =? y q).

Definition Rect_AABB_eqb (a b : Rect_AABB) : bool :=
  Vector2_eqb (centerPoint a) (centerPoint b)
  && Vector2_eqb (halfDimension a) (halfDimension b).

(** Modelled from the spec: [Rect_AABB::contains] is declared in
    PointQuadTree.hpp, which is not part of the sources.  The point lies
    within [center - half, center + half] on both axes, bounds included. *)
Definition contains (r : Rect_AABB) (p : Vector2) : bool :=
  (x (centerPoint r) - x (halfDimension r) <=? x p)
  && (x p <=? x (centerPoint r) + x (halfDimension r))
  && (y (centerPoint r) - y (halfDimension r) <=? y p)
  && (y p <=? y (centerPoint r) + y (halfDimension r)).

(** Modelled from the spec: [Rect_AABB::Intersects_AABB] is declared in
    PointQuadTree.hpp, which is not part of the sources.  The two regions
    overlap on both axes, with the same closed bounds as [contains]. *)
Definition Intersects_AABB (a b : Rect_AABB) : bool :=
  (x (centerPoint a) - x (halfDimension a) <=? x (centerPoint b) + x (halfDimension b))
  && (x (centerPoint b) - x (halfDimension b) <=? x (centerPoint a) + x (halfDimension a))
  && (y (centerPoint a) - y (halfDimension a) <=? y (centerPoint b) + y (halfDimension b))
  && (y (centerPoint b) - y (halfDimension b) <=? y (centerPoint a) + y (halfDimension a)).

(** The four child pointers of a node, in the order [Insert] tries them. *)
Inductive Quadrant : Type := NW | NE | SE | SW.

Definition insert_order : list Quadrant := [NW; NE; SE; SW].

(** The region [Subdivide] gives to each child (lines 99-111): the child's
    size is the parent's [halfDimension] and its centre is the parent's
    centre moved by that size on each axis. *)
Definition child_region (q : Quadrant) (b : Rect_AABB) : Rect_AABB :=
  let children_size :=
    mkVector2 (x (halfDimension b)) (y (halfDimension b)) in
  let cx := x (centerPoint b) in
  let cy := y (centerPoint b) in
  match q with
  | SW => mkRect_AABB (mkVector2 (cx - x children_size) (cy - y children_size)) children_size
  | SE => mkRect_AABB (mkVector2 (cx + x children_size) (cy - y children_size)) children_size
  | NW => mkRect_AABB (mkVector2 (cx - x children_size) (cy + y children_size)) children_size
  | NE => mkRect_AABB (mkVector2 (cx + x children_size) (cy + y children_size)) children_size
  end.

(** ** Nodes *)

Section PointQuadTree.

(** The payload type of the template. *)
Variable T : Type.

(** The bucket size [QT_NODE_MAX_CAPACITY]; its value is set in
    PointQuadTree.hpp, which is not part of the sources. *)
Variable QT_NODE_MAX_CAPACITY : nat.

Record Data_Node : Type := mkData_Node {
  point : Vector2;
  payload : T
}.

(** Modelled from the spec: [Rect_AABB::ContainsPoint] is declared in
    PointQuadTree.hpp, which is not part of the sources.  The query tests
    a stored entry by the containment of its point. *)
Definition ContainsPoint (r : Rect_AABB) (d : Data_Node) : bool :=
  contains r (point d).

#[local] Unset Elimination Schemes.

Inductive PointQuadTree : Type := mkPointQuadTree {
  boundaries : Rect_AABB;
  points : list Data_Node;
  northWest : option PointQuadTree;
  northEast : option PointQuadTree;
  southEast : option PointQuadTree;
  southWest : option PointQuadTree
}.

#[local] Set Elimination Schemes.

Definition child (q : Quadrant) (t : PointQuadTree) : option PointQuadTree :=
  match q with
  | NW => northWest t
  | NE => northEast t
  | SE => southEast t
  | SW => southWest t
  end.

Definition set_child (q : Quadrant) (c : option PointQuadTree)
    (t : PointQuadTree) : PointQuadTree :=
  match t with
  | mkPointQuadTree b ps nw ne se sw =>
    match q with
    | NW => mkPointQuadTree b ps c ne se sw
    | NE => mkPointQuadTree b ps nw c se sw
    | SE => mkPointQuadTree b ps nw ne c sw
    | SW => mkPointQuadTree b ps nw ne se c
    end
  end.

Definition push_back (d : Data_Node) (t : PointQuadTree) : PointQuadTree :=
  match t with
  | mkPointQuadTree b ps nw ne se sw => mkPointQuadTree b (ps ++ [d]) nw ne se sw
  end.

Definition is_null (o : option PointQuadTree) : bool :=
  match o with
  | None => true
  | Some _ => false
  end.

(** The constructor (lines 26-30): the four pointers null, the bucket
    empty. *)
Definition PointQuadTree_new (_boundaries : Rect_AABB) : PointQuadTree :=
  mkPointQuadTree _boundaries [] None None None None.

(** [Subdivide] (lines 98-112) assigns the four pointers in the order
    south-west, south-east, north-west, north-east. *)
Definition Subdivide (t : PointQuadTree) : PointQuadTree :=
  let children_size :=
    mkVector2 (x (halfDimension (boundaries t))) (y (halfDimension (boundaries t))) in
  let child_center :=
    mkVector2 (x (centerPoint (boundaries t)) - x children_size)
              (y (centerPoint (boundaries t)) - y children_size) in
  let t1 := set_child SW (Some (PointQuadTree_new (mkRect_AABB child_center children_size))) t in
  let child_center :=
    mkVector2 (x (centerPoint (boundaries t1)) + x children_size)
              (y (centerPoint (boundaries t1)) - y children_size) in
  let t2 := set_child SE (Some (PointQuadTree_new (mkRect_AABB child_center children_size))) t1 in
  let child_center :=
    mkVector2 (x (centerPoint (boundaries t2)) - x children_size)
              (y (centerPoint (boundaries t2)) + y children_size) in
  let t3 := set_child NW (Some (PointQuadTree_new (mkRect_AABB child_center children_size))) t2 in
  let child_center :=
    mkVector2 (x (centerPoint (boundaries t3)) + x children_size)
              (y (centerPoint (boundaries t3)) + y children_size) in
  set_child NE (Some (PointQuadTree_new (mkRect_AABB child_center children_size))) t3.

(** A member call through a child pointer, [ptr->m(...)]: a null pointer
    is an error; otherwise the call works on the pointee in place and its
    return value comes back. *)
Definition call_child {A : Type} (q : Quadrant)
    (m : PointQuadTree -> outcome (A * PointQuadTree))
    (t : PointQuadTree) : outcome (A * PointQuadTree) :=
  match child q t with
  | None => NullDeref
  | Some c =>
    '(a, c') <- m c ;;
    Ok (a, set_child q (Some c') t)
  end.

(** [Insert] (lines 58-83).  The recursion goes into children that
    [Subdivide] has just made, so it is bounded by [fuel]. *)
Fixpoint Insert (fuel : nat) (t : PointQuadTree) (data : Data_Node)
    : outcome (bool * PointQuadTree) :=
  match fuel with
  | O => OutOfFuel
  | S fuel' =>
    if negb (contains (boundaries t) (point data)) then Ok (false, t)
    else if (length (points t) <? QT_NODE_MAX_CAPACITY)%nat then
      Ok (true, push_back data t)
    else
      let t := if is_null (northWest t) then Subdivide t else t in
      '(r, t) <- call_child NW (fun c => Insert fuel' c data) t ;;
      if r then Ok (true, t) else
      '(r, t) <- call_child NE (fun c => Insert fuel' c data) t ;;
      if r then Ok (true, t) else
      '(r, t) <- call_child SE (fun c => Insert fuel' c data) t ;;
      if r then Ok (true, t) else
      '(r, t) <- call_child SW (fun c => Insert fuel' c data) t ;;
      if r then Ok (true, t) else
      Ok (false, t)
  end.

(** The bucket scan of lines 154-158. *)
Definition scan_points (range : Rect_AABB) (ps : list Data_Node)
    (result : list Data_Node) : list Data_Node :=
  fold_left
    (fun result point =>
       if ContainsPoint range point then result ++ [point] else result)
    ps result.

(** [QueryRange_private_recursive] (lines 147-169): the node and the
    caller's vector go in, the node and the vector come out. *)
Fixpoint QueryRange_private_recursive (t : PointQuadTree) (range : Rect_AABB)
    (result : list Data_Node) : outcome (PointQuadTree * list Data_Node) :=
  match t with
  | mkPointQuadTree b ps nw ne se sw =>
    if negb (Intersects_AABB b range) then Ok (t, result)
    else
      let result := scan_points range ps result in
      match ne with
      | None => Ok (t, result)
      | Some ne0 =>
        '(ne1, result) <- QueryRange_private_recursive ne0 range result ;;
        match nw with
        | None => NullDeref
        | Some nw0 =>
          '(nw1, result) <- QueryRange_private_recursive nw0 range result ;;
          match se with
          | None => NullDeref
          | Some se0 =>
            '(se1, result) <- QueryRange_private_recursive se0 range result ;;
            match sw with
            | None => NullDeref
            | Some sw0 =>
              '(sw1, result) <- QueryRange_private_recursive sw0 range result ;;
              Ok (mkPointQuadTree b ps (Some nw1) (Some ne1) (Some se1) (Some sw1),
                  result)
            end
          end
        end
      end
  end.

(** [QueryRange] (lines 127-132) starts from an empty vector of its own. *)
Definition QueryRange (t : PointQuadTree) (range : Rect_AABB)
    : outcome (PointQuadTree * list Data_Node) :=
  let results := [] in
  QueryRange_private_recursive t range results.

(** A run of [Insert] calls on the same root, with the value each call
    returned. *)
Fixpoint Insert_all (fuel : nat) (t : PointQuadTree) (ds : list Data_Node)
    : outcome (list bool * PointQuadTree) :=
  match ds with
  | [] => Ok ([], t)
  | d :: ds' =>
    '(r, t) <- Insert fuel t d ;;
    '(rs, t) <- Insert_all fuel t ds' ;;
    Ok (r :: rs, t)
  end.

(** ** Vocabulary of the properties *)

Definition on_opt {A B : Type} (f : A -> B) (dflt : B) (o : option A) : B :=
  match o with
  | Some a => f a
  | None => dflt
  end.

(** The four [if (child->Insert(data)) return true;] lines as one loop
    over the child pointers; [Insert] is this loop on [insert_order]. *)
Fixpoint try_children (m : PointQuadTree -> outcome (bool * PointQuadTree))
    (qs : list Quadrant) (t : PointQuadTree) : outcome (bool * PointQuadTree) :=
  match qs with
  | [] => Ok (false, t)
  | q :: qs' =>
    '(r, t) <- call_child q m t ;;
    if r then Ok (true, t) else try_children m qs' t
  end.

Definition is_leaf (t : PointQuadTree) : bool :=
  is_null (northWest t) && is_null (northEast t)
  && is_null (southEast t) && is_null (southWest t).

Definition is_internal (t : PointQuadTree) : bool :=
  negb (is_null (northWest t)) && negb (is_null (northEast t))
  && negb (is_null (southEast t)) && negb (is_null (southWest t)).

(** Every entry stored at a node or below it, in the order a query that
    prunes nothing meets them. *)
Fixpoint entries (t : PointQuadTree) : list Data_Node :=
  match t with
  | mkPointQuadTree b ps nw ne se sw =>
    ps ++ on_opt entries [] ne ++ on_opt entries [] nw
       ++ on_opt entries [] se ++ on_opt entries [] sw
  end.

(** A node and all the nodes below it. *)
Fixpoint nodes (t : PointQuadTree) : list PointQuadTree :=
  match t with
  | mkPointQuadTree b ps nw ne se sw =>
    t :: on_opt nodes [] nw ++ on_opt nodes [] ne
      ++ on_opt nodes [] se ++ on_opt nodes [] sw
  end.

Fixpoint depth (t : PointQuadTree) : nat :=
  match t with
  | mkPointQuadTree b ps nw ne se sw =>
    if is_leaf t then O
    else S (Nat.max (Nat.max (on_opt depth O nw) (on_opt depth O ne))
                    (Nat.max (on_opt depth O se) (on_opt depth O sw)))
  end.

(** The four pointers of every node are all null or all set. *)
Fixpoint shape (t : PointQuadTree) : bool :=
  match t with
  | mkPointQuadTree b ps nw ne se sw =>
    (is_leaf t || is_internal t)
    && on_opt shape true nw && on_opt shape true ne
    && on_opt shape true se && on_opt shape true sw
  end.

(** Every entry at a node or below it lies in the node's region. *)
Fixpoint within (t : PointQuadTree) : bool :=
  match t with
  | mkPointQuadTree b ps nw ne se sw =>
    forallb (ContainsPoint b) (entries t)
    && on_opt within true nw && on_opt within true ne
    && on_opt within true se && on_opt within true sw
  end.

Definition has_region (r : Rect_AABB) (o : option PointQuadTree) : bool :=
  on_opt (fun c => Rect_AABB_eqb (boundaries c) r) false o.

(** The states [Insert] builds: a leaf holds at most
    [QT_NODE_MAX_CAPACITY] entries; a split node holds exactly that many
    and its children have the regions [Subdivide] computed. *)
Fixpoint wf (t : PointQuadTree) : bool :=
  match t with
  | mkPointQuadTree b ps nw ne se sw =>
    if is_leaf t then (length ps <=? QT_NODE_MAX_CAPACITY)%nat
    else
      is_internal t
      && (length ps =? QT_NODE_MAX_CAPACITY)%nat
      && has_region (child_region NW b) nw && has_region (child_region NE b) ne
      && has_region (child_region SE b) se && has_region (child_region SW b) sw
      && on_opt wf true nw && on_opt wf true ne
      && on_opt wf true se && on_opt wf true sw
  end.

(** Whether the child behind a pointer takes the point. *)
Definition accepts (p : Vector2) (o : option PointQuadTree) : bool :=
  on_opt (fun c => contains (boundaries c) p) false o.

(** The first child, in the order [Insert] tries them, whose region
    contains the point. *)
Definition first_accepting (qs : list Quadrant) (t : PointQuadTree)
    (p : Vector2) : option Quadrant :=
  find (fun q => accepts p (child q t)) qs.

(** The entries of a run that [Insert] reported as stored. *)
Fixpoint accepted (ds : list Data_Node) (rs : list bool) : list Data_Node :=
  match ds, rs with
  | d :: ds', r :: rs' =>
    if r then d :: accepted ds' rs' else accepted ds' rs'
  | _, _ => []
  end.

(** The answer of a range query as a plain list. *)
Fixpoint answer (range : Rect_AABB) (t : PointQuadTree) : list Data_Node :=
  match t with
  | mkPointQuadTree b ps nw ne se sw =>
    if negb (Intersects_AABB b range) then []
    else
      filter (ContainsPoint range) ps
      ++ on_opt (answer range) [] ne ++ on_opt (answer range) [] nw
      ++ on_opt (answer range) [] se ++ on_opt (answer range) [] sw
  end.

(** What a call that returned [r] added to the stored entries. *)
Definition stored (r : bool) (d : Data_Node) : list Data_Node :=
  if r then [d] else [].

(** [rel d r t t']: a call of [Insert] on [t] with entry [d] that
    returned [r] left [t'] behind. *)
Definition rel (d : Data_Node) (r : bool) (t t' : PointQuadTree) : Prop :=
  boundaries t' = boundaries t
  /\ Permutation (entries t') (stored r d ++ entries t)
  /\ wf t' = true
  /\ (within t = true -> within t' = true)
  /\ (r = true -> contains (boundaries t) (point d) = true).

(** The children of a node carry the regions [Subdivide] computes. *)
Definition regions_ok (t : PointQuadTree) : Prop :=
  forall q, exists c, child q t = Some c
                      /\ boundaries c = child_region q (boundaries t).

(** ** Vocabulary of the chain of full buckets *)

Definition Quadrant_eqb (q q' : Quadrant) : bool :=
  match q, q' with
  | NW, NW | NE, NE | SE, SE | SW, SW => true
  | _, _ => false
  end.

(** Nothing is stored behind the pointer. *)
Definition no_entries (o : option PointQuadTree) : bool :=
  match on_opt entries [] o with
  | [] => true
  | _ :: _ => false
  end.

Definition is_taker (q : Quadrant) (o : option Quadrant) : bool :=
  on_opt (Quadrant_eqb q) false o.

(** The child behind [q] stores nothing unless it is the child that
    [Insert] hands the point [p] to. *)
Definition lone_at (p : Vector2) (t : PointQuadTree) (q : Quadrant) : bool :=
  no_entries (child q t) || is_taker q (first_accepting insert_order t p).

(** At every node, only the child that takes [p] stores anything. *)
Fixpoint lone_path (p : Vector2) (t : PointQuadTree) : bool :=
  match t with
  | mkPointQuadTree b ps nw ne se sw =>
    forallb (lone_at p t) insert_order
    && on_opt (lone_path p) true nw && on_opt (lone_path p) true ne
    && on_opt (lone_path p) true se && on_opt (lone_path p) true sw
  end.

(** ** The range query over the tests of the absent header

    [Rect_AABB::Intersects_AABB] and [Rect_AABB::ContainsPoint] are
    declared in PointQuadTree.hpp, which is not part of the sources, and
    the specification leaves open whether their bounds are inclusive.
    The query is restated here with the two tests as parameters. *)

Definition scan_points_with (ContainsPoint_ : Rect_AABB -> Data_Node -> bool)
    (range : Rect_AABB) (ps : list Data_Node)
    (result : list Data_Node) : list Data_Node :=
  fold_left
    (fun result point =>
       if ContainsPoint_ range point then result ++ [point] else result)
    ps result.

(** [QueryRange_private_recursive] (lines 147-169) over any two tests. *)
Fixpoint QueryRange_private_recursive_with
    (Intersects_AABB_ : Rect_AABB -> Rect_AABB -> bool)
    (ContainsPoint_ : Rect_AABB -> Data_Node -> bool)
    (t : PointQuadTree) (range : Rect_AABB)
    (result : list Data_Node) : outcome (PointQuadTree * list Data_Node) :=
  match t with
  | mkPointQuadTree b ps nw ne se sw =>
    if negb (Intersects_AABB_ b range) then Ok (t, result)
    else
      let result := scan_points_with ContainsPoint_ range ps result in
      match ne with
      | None => Ok (t, result)
      | Some ne0 =>
        '(ne1, result) <-
          QueryRange_private_recursive_with Intersects_AABB_ ContainsPoint_
            ne0 range result ;;
        match nw with
        | None => NullDeref
        | Some nw0 =>
          '(nw1, result) <-
            QueryRange_private_recursive_with Intersects_AABB_ ContainsPoint_
              nw0 range result ;;
          match se with
          | None => NullDeref
          | Some se0 =>
            '(se1, result) <-
              QueryRange_private_recursive_with Intersects_AABB_ ContainsPoint_
                se0 range result ;;
            match sw with
            | None => NullDeref
            | Some sw0 =>
              '(sw1, result) <-
                QueryRange_private_recursive_with Intersects_AABB_ ContainsPoint_
                  sw0 range result ;;
              Ok (mkPointQuadTree b ps (Some nw1) (Some ne1) (Some se1) (Some sw1),
                  result)
            end
          end
        end
      end
  end.



End PointQuadTree.

Arguments PointQuadTree_new {T} _boundaries.

(** ** A concrete tree

    The root region is centred at (0,0) with half-extents (10,10) and the
    bucket size is 4; payloads number the entries. *)
Module Scenario.

Definition capacity : nat := 4.

Definition region : Rect_AABB :=
  mkRect_AABB (mkVector2 0 0) (mkVector2 10 10).

Definition entry_at (px py : Z) (id : nat) : Data_Node nat :=
  mkData_Node (mkVector2 px py) id.

Definition four : list (Data_Node nat) :=
  [entry_at 1 1 1; entry_at 2 2 2; entry_at 3 3 3; entry_at 4 4 4].

Definition fifth : Data_Node nat := entry_at 5 5 5.

Definition outside : Data_Node nat := entry_at 11 0 6.

Definition root : PointQuadTree nat := PointQuadTree_new region.

(** The root after the five entries: split once, the fifth entry in the
    north-east child. *)
Definition north_east_child : PointQuadTree nat :=
  mkPointQuadTree (child_region NE region) [fifth] None None None None.

Definition split_root : PointQuadTree nat :=
  mkPointQuadTree region four
    (Some (PointQuadTree_new (child_region NW region)))
    (Some north_east_child)
    (Some (PointQuadTree_new (child_region SE region)))
    (Some (PointQuadTree_new (child_region SW region))).

(** A root that holds the single entry at (1,1), and the zero-area range
    at that point. *)
Definition single_root : PointQuadTree nat :=
  mkPointQuadTree region [entry_at 1 1 1] None None None None.

Definition degenerate : Rect_AABB :=
  mkRect_AABB (mkVector2 1 1) (mkVector2 0 0).

End Scenario.

(** * Properties *)

Ltac bool_to_prop :=
  repeat rewrite ?andb_true_iff, ?orb_true_iff, ?negb_true_iff,
    ?negb_false_iff, ?Z.leb_le, ?Z.eqb_eq, ?Nat.leb_le, ?Nat.ltb_lt,
    ?Nat.ltb_ge, ?Nat.eqb_eq in *.

(** ** Geometry *)

Lemma contains_spec (r : Rect_AABB) (p : Vector2) :
  contains r p = true <->
  x (centerPoint r) - x (halfDimension r) <= x p <= x (centerPoint r) + x (halfDimension r)
  /\ y (centerPoint r) - y (halfDimension r) <= y p <= y (centerPoint r) + y (halfDimension r).
Proof. unfold contains. bool_to_prop. lia. Qed.

Lemma Intersects_AABB_spec (a b : Rect_AABB) :
  Intersects_AABB a b = true <->
  x (centerPoint a) - x (halfDimension a) <= x (centerPoint b) + x (halfDimension b)
  /\ x (centerPoint b) - x (halfDimension b) <= x (centerPoint a) + x (halfDimension a)
  /\ y (centerPoint a) - y (halfDimension a) <= y (centerPoint b) + y (halfDimension b)
  /\ y (centerPoint b) - y (halfDimension b) <= y (centerPoint a) + y (halfDimension a).
Proof. unfold Intersects_AABB. bool_to_prop. lia. Qed.

(** A point that two regions share makes them intersect: pruning a
    subtree by [Intersects_AABB] loses no point of the range. *)
Lemma contains_Intersects_AABB (a b : Rect_AABB) (p : Vector2) :
  contains a p = true -> contains b p = true -> Intersects_AABB a b = true.
Proof.
  rewrite !contains_spec, Intersects_AABB_spec. lia.
Qed.

Lemma Vector2_eqb_eq (p q : Vector2) : Vector2_eqb p q = true <-> p = q.
Proof.
  destruct p as [px py], q as [qx qy]. unfold Vector2_eqb. simpl.
  bool_to_prop. split.
  - intros [-> ->]. reflexivity.
  - intros E. injection E. auto.
Qed.

Lemma Rect_AABB_eqb_eq (a b : Rect_AABB) : Rect_AABB_eqb a b = true <-> a = b.
Proof.
  destruct a as [ac ah], b as [bc bh]. unfold Rect_AABB_eqb. simpl.
  rewrite andb_true_iff, !Vector2_eqb_eq. split.
  - intros [-> ->]. reflexivity.
  - intros E. injection E. auto.
Qed.

(** The regions [Subdivide] computes cover the parent's region. *)
Lemma child_region_cover (b : Rect_AABB) (p : Vector2) :
  contains b p = true ->
  exists q, In q insert_order /\ contains (child_region q b) p = true.
Proof.
  intros H. apply contains_spec in H.
  destruct (Z_le_gt_dec (x p) (x (centerPoint b))) as [Hx | Hx];
    destruct (Z_le_gt_dec (y (centerPoint b)) (y p)) as [Hy | Hy].
  - exists NW. split; [simpl; auto |]. apply contains_spec. simpl. lia.
  - exists SW. split; [simpl; auto |]. apply contains_spec. simpl. lia.
  - exists NE. split; [simpl; auto |]. apply contains_spec. simpl. lia.
  - exists SE. split; [simpl; auto |]. apply contains_spec. simpl. lia.
Qed.

(** The children keep the parent's size. *)
Lemma child_region_halfDimension (q : Quadrant) (b : Rect_AABB) :
  halfDimension (child_region q b) = halfDimension b.
Proof. destruct b as [c [hx hy]], q; reflexivity. Qed.

Section Properties.

Variable T : Type.
Variable QT_NODE_MAX_CAPACITY : nat.

Local Abbreviation tree := (PointQuadTree T).
Local Abbreviation entry := (Data_Node T).
Local Abbreviation cap := QT_NODE_MAX_CAPACITY.

(** ** Induction over a node and the nodes below it *)

Lemma PointQuadTree_ind (P : tree -> Prop) :
  (forall b ps nw ne se sw,
      on_opt P True nw -> on_opt P True ne ->
      on_opt P True se -> on_opt P True sw ->
      P (mkPointQuadTree b ps nw ne se sw)) ->
  forall t, P t.
Proof.
  intros step. fix IH 1. intros [b ps nw ne se sw].
  apply step.
  - destruct nw as [c |]; [exact (IH c) | exact I].
  - destruct ne as [c |]; [exact (IH c) | exact I].
  - destruct se as [c |]; [exact (IH c) | exact I].
  - destruct sw as [c |]; [exact (IH c) | exact I].
Qed.

(** ** The code, unfolded *)

Lemma Subdivide_eq b ps nw ne se sw :
  Subdivide (mkPointQuadTree b ps nw ne se sw : tree) =
  mkPointQuadTree b ps
    (Some (PointQuadTree_new (child_region NW b)))
    (Some (PointQuadTree_new (child_region NE b)))
    (Some (PointQuadTree_new (child_region SE b)))
    (Some (PointQuadTree_new (child_region SW b))).
Proof. reflexivity. Qed.

Lemma Insert_unfold fuel (t : tree) (d : entry) :
  Insert cap (S fuel) t d =
  if negb (contains (boundaries t) (point d)) then Ok (false, t)
  else if (length (points t) <? cap)%nat then Ok (true, push_back d t)
  else try_children (fun c => Insert cap fuel c d) insert_order
         (if is_null (northWest t) then Subdivide t else t).
Proof. reflexivity. Qed.

Lemma call_child_Ok (A : Type) q (m : tree -> outcome (A * tree)) t a t' :
  call_child q m t = Ok (a, t') ->
  exists c c', child q t = Some c /\ m c = Ok (a, c')
               /\ t' = set_child q (Some c') t.
Proof.
  unfold call_child. destruct (child q t) as [c |]; [| discriminate].
  destruct (m c) as [[a0 c'] | |] eqn:Hm; simpl; [| discriminate | discriminate].
  intros E. injection E as <- <-. exists c, c'. auto.
Qed.

Lemma set_child_same q (t c : tree) :
  child q t = Some c -> set_child q (Some c) t = t.
Proof. destruct t, q; simpl; intros ->; reflexivity. Qed.

Lemma boundaries_set_child q c (t : tree) :
  boundaries (set_child q c t) = boundaries t.
Proof. destruct t, q; reflexivity. Qed.

Lemma points_set_child q c (t : tree) :
  points (set_child q c t) = points t.
Proof. destruct t, q; reflexivity. Qed.

Lemma child_set_child q c (t : tree) : child q (set_child q c t) = c.
Proof. destruct t, q; reflexivity. Qed.

Lemma child_set_child_other q q' c (t : tree) :
  q <> q' -> child q' (set_child q c t) = child q' t.
Proof. destruct t, q, q'; simpl; congruence. Qed.

(** ** The invariants, node by node *)

Lemma wf_leaf_iff b (ps : list entry) :
  wf cap (mkPointQuadTree b ps None None None None) = true <->
  (length ps <= cap)%nat.
Proof. simpl. apply Nat.leb_le. Qed.

Lemma wf_node_iff b (ps : list entry) nw ne se sw :
  wf cap (mkPointQuadTree b ps (Some nw) (Some ne) (Some se) (Some sw)) = true <->
  length ps = cap
  /\ (boundaries nw = child_region NW b /\ boundaries ne = child_region NE b
      /\ boundaries se = child_region SE b /\ boundaries sw = child_region SW b)
  /\ (wf cap nw = true /\ wf cap ne = true
      /\ wf cap se = true /\ wf cap sw = true).
Proof.
  simpl. rewrite !andb_true_iff, !Rect_AABB_eqb_eq, Nat.eqb_eq. tauto.
Qed.

(** A well-formed node has no pointer or all four. *)
Lemma wf_cases (t : tree) :
  wf cap t = true ->
  (exists b ps, t = mkPointQuadTree b ps None None None None)
  \/ (exists b ps nw ne se sw,
         t = mkPointQuadTree b ps (Some nw) (Some ne) (Some se) (Some sw)).
Proof.
  destruct t as [b ps [nw |] [ne |] [se |] [sw |]]; simpl;
    try discriminate; eauto 10.
Qed.

Lemma wf_shape (t : tree) : wf cap t = true -> shape t = true.
Proof.
  induction t as [b ps nw ne se sw IHnw IHne IHse IHsw] using PointQuadTree_ind.
  intros H. destruct (wf_cases _ H) as [(b' & ps' & E) | (b' & ps' & a & c & e & f & E)];
    injection E as -> -> -> -> -> ->.
  - reflexivity.
  - apply wf_node_iff in H. simpl in *. bool_to_prop. intuition.
Qed.

Lemma wf_new b : wf cap (PointQuadTree_new (T := T) b) = true.
Proof. reflexivity. Qed.

Lemma within_new b : within (PointQuadTree_new (T := T) b) = true.
Proof. reflexivity. Qed.

Lemma forallb_Permutation (A : Type) (f : A -> bool) (l l' : list A) :
  Permutation l l' -> forallb f l = forallb f l'.
Proof.
  induction 1 as [| a l l' _ IH | a a' l | l l' l'' _ IH1 _ IH2];
    simpl; try congruence.
  destruct (f a), (f a'); reflexivity.
Qed.

Lemma within_iff b (ps : list entry) nw ne se sw :
  within (mkPointQuadTree b ps nw ne se sw) = true <->
  forallb (ContainsPoint b) (entries (mkPointQuadTree b ps nw ne se sw)) = true
  /\ on_opt (@within T) true nw = true /\ on_opt (@within T) true ne = true
  /\ on_opt (@within T) true se = true /\ on_opt (@within T) true sw = true.
Proof.
  change (within (mkPointQuadTree b ps nw ne se sw)) with
    (forallb (ContainsPoint b) (entries (mkPointQuadTree b ps nw ne se sw))
     && on_opt (@within T) true nw && on_opt (@within T) true ne
     && on_opt (@within T) true se && on_opt (@within T) true sw).
  rewrite !andb_true_iff. tauto.
Qed.

Lemma within_entries (t : tree) :
  within t = true -> forallb (ContainsPoint (boundaries t)) (entries t) = true.
Proof. destruct t. intros H. apply within_iff in H. apply H. Qed.

(** ** What one call leaves behind *)

Lemma rel_refl d (t : tree) : wf cap t = true -> rel cap d false t t.
Proof.
  intros H. repeat split; auto. discriminate.
Qed.

Lemma rel_trans d r (t t0 t' : tree) :
  rel cap d false t t0 -> rel cap d r t0 t' -> rel cap d r t t'.
Proof.
  intros (B1 & P1 & W1 & I1 & _) (B2 & P2 & W2 & I2 & C2).
  repeat split; auto.
  - congruence.
  - rewrite P2. apply Permutation_app_head. exact P1.
  - rewrite <- B1. exact C2.
Qed.

Lemma perm_ctx (pre a b l l' : list entry) :
  Permutation l' (pre ++ l) ->
  Permutation (a ++ l' ++ b) (pre ++ a ++ l ++ b).
Proof.
  intros H. rewrite H, <- app_assoc, (app_assoc a pre), (app_assoc pre a).
  apply Permutation_app_tail, Permutation_app_comm.
Qed.

Lemma entries_set_child q (t c c' : tree) (pre : list entry) :
  child q t = Some c ->
  Permutation (entries c') (pre ++ entries c) ->
  Permutation (entries (set_child q (Some c') t)) (pre ++ entries t).
Proof.
  destruct t as [b ps nw ne se sw], q; simpl; intros -> H; simpl.
  - rewrite !(app_assoc ps). apply perm_ctx. exact H.
  - apply perm_ctx. exact H.
  - rewrite !(app_assoc ps), !(app_assoc (ps ++ _)). apply perm_ctx. exact H.
  - rewrite <- (app_nil_r (entries c')), <- (app_nil_r (entries c)).
    rewrite !(app_assoc ps), !(app_assoc (ps ++ _)), !(app_assoc ((ps ++ _) ++ _)).
    apply perm_ctx. exact H.
Qed.

Lemma rel_push_back d (t : tree) :
  wf cap t = true ->
  contains (boundaries t) (point d) = true ->
  (length (points t) < cap)%nat ->
  rel cap d true t (push_back d t).
Proof.
  intros Hw Hc Hl.
  assert (HP : Permutation (entries (push_back d t)) (d :: entries t)).
  { destruct t as [b ps nw ne se sw]. simpl.
    rewrite <- app_assoc. symmetry. apply Permutation_middle. }
  repeat split; auto.
  - destruct t; reflexivity.
  - destruct (wf_cases _ Hw) as [(b & ps & ->) | (b & ps & nw & ne & se & sw & ->)].
    + apply wf_leaf_iff. apply wf_leaf_iff in Hw. simpl in Hl.
      rewrite length_app. simpl. lia.
    + apply wf_node_iff in Hw. simpl in Hl. lia.
  - intros Hi. destruct t as [b ps nw ne se sw].
    apply within_iff in Hi. apply within_iff.
    destruct Hi as (He & Hrest). split; [| exact Hrest].
    change (mkPointQuadTree b (ps ++ [d]) nw ne se sw)
      with (push_back d (mkPointQuadTree b ps nw ne se sw)).
    rewrite (forallb_Permutation _ HP). cbn [forallb]. rewrite He.
    simpl in Hc. unfold ContainsPoint. rewrite Hc. reflexivity.
Qed.

Lemma wf_child q (t c : tree) :
  wf cap t = true -> child q t = Some c -> wf cap c = true.
Proof.
  intros Hw Hq.
  destruct (wf_cases _ Hw) as [(b & ps & ->) | (b & ps & nw & ne & se & sw & ->)].
  - destruct q; discriminate.
  - apply wf_node_iff in Hw.
    destruct q; simpl in Hq; injection Hq as <-; tauto.
Qed.

Lemma rel_set_child d r q (t c c' : tree) :
  wf cap t = true ->
  contains (boundaries t) (point d) = true ->
  child q t = Some c ->
  rel cap d r c c' ->
  rel cap d r t (set_child q (Some c') t).
Proof.
  intros Hw Hc Hq (B & P & W & I & C).
  assert (HP : Permutation (entries (set_child q (Some c') t))
                           (stored r d ++ entries t))
    by (eapply entries_set_child; eauto).
  repeat split.
  - apply boundaries_set_child.
  - exact HP.
  - destruct (wf_cases _ Hw) as [(b & ps & ->) | (b & ps & nw & ne & se & sw & ->)].
    + destruct q; discriminate.
    + apply wf_node_iff in Hw.
      destruct q; simpl in Hq; injection Hq as ->; simpl set_child;
        apply wf_node_iff; rewrite B; tauto.
  - intros Hi.
    assert (He : forallb (ContainsPoint (boundaries t))
                   (entries (set_child q (Some c') t)) = true).
    { rewrite (forallb_Permutation _ HP), forallb_app.
      rewrite (within_entries _ Hi).
      destruct r; simpl; unfold ContainsPoint; rewrite ?Hc; reflexivity. }
    destruct t as [b ps nw ne se sw]. apply within_iff in Hi.
    destruct q; simpl in Hq; subst; simpl set_child in *;
      apply within_iff; (split; [exact He |]); simpl in *; tauto.
  - intros _. exact Hc.
Qed.

(** The split of a full leaf stores nothing and keeps the invariants. *)
Lemma rel_Subdivide d (t : tree) :
  wf cap t = true ->
  is_null (northWest t) = true ->
  (cap <= length (points t))%nat ->
  rel cap d false t (Subdivide t).
Proof.
  intros Hw Hn Hl.
  destruct (wf_cases _ Hw) as [(b & ps & ->) | (b & ps & nw & ne & se & sw & ->)];
    [| discriminate].
  apply wf_leaf_iff in Hw. simpl in Hl. rewrite Subdivide_eq.
  repeat split.
  - reflexivity.
  - apply wf_node_iff. repeat split; try reflexivity. lia.
  - intros Hi. apply within_iff in Hi. apply within_iff.
    repeat split. apply Hi.
  - discriminate.
Qed.

Lemma try_children_preserves d (m : tree -> outcome (bool * tree)) :
  (forall c r c', wf cap c = true -> m c = Ok (r, c') -> rel cap d r c c') ->
  forall qs t r t',
    wf cap t = true ->
    contains (boundaries t) (point d) = true ->
    try_children m qs t = Ok (r, t') ->
    rel cap d r t t'.
Proof.
  intros Hm. induction qs as [| q qs IH]; intros t r t' Hw Hc; simpl.
  - intros E. injection E as <- <-. apply rel_refl. exact Hw.
  - destruct (call_child q m t) as [[r1 t1] | |] eqn:Hcall; simpl;
      try discriminate.
    apply call_child_Ok in Hcall as (c & c' & Hq & Hmc & ->).
    assert (R1 : rel cap d r1 t (set_child q (Some c') t)).
    { apply rel_set_child with c; auto. apply Hm; auto.
      apply wf_child with q t; auto. }
    destruct r1.
    + intros E. injection E as <- <-. exact R1.
    + intros Htry. apply rel_trans with (set_child q (Some c') t); [exact R1 |].
      apply IH; auto.
      * apply R1.
      * rewrite boundaries_set_child. exact Hc.
Qed.

(** Every call of [Insert] that returns keeps the region, the
    invariants, and adds the entry exactly when it returns true. *)
Lemma Insert_preserves fuel :
  forall (t : tree) d r t',
    wf cap t = true -> Insert cap fuel t d = Ok (r, t') -> rel cap d r t t'.
Proof.
  induction fuel as [| fuel IH]; intros t d r t' Hw; [discriminate |].
  rewrite Insert_unfold.
  destruct (contains (boundaries t) (point d)) eqn:Hc; cbn [negb].
  2: { intros E. injection E as <- <-. apply rel_refl. exact Hw. }
  destruct (length (points t) <? cap)%nat eqn:Hl.
  { intros E. injection E as <- <-. apply Nat.ltb_lt in Hl.
    apply rel_push_back; auto. }
  apply Nat.ltb_ge in Hl. intros Htry.
  assert (R0 : rel cap d false t (if is_null (northWest t) then Subdivide t else t)).
  { destruct (is_null (northWest t)) eqn:Hn.
    - apply rel_Subdivide; auto.
    - apply rel_refl; auto. }
  apply rel_trans with (1 := R0).
  apply try_children_preserves with (4 := Htry).
  - intros c r0 c' Hwc Hi. apply IH; auto.
  - apply R0.
  - destruct R0 as (-> & _). exact Hc.
Qed.

Lemma Insert_all_preserves fuel :
  forall ds (t : tree) rs t',
    wf cap t = true ->
    Insert_all cap fuel t ds = Ok (rs, t') ->
    boundaries t' = boundaries t
    /\ Permutation (entries t') (accepted ds rs ++ entries t)
    /\ wf cap t' = true
    /\ (within t = true -> within t' = true).
Proof.
  induction ds as [| d ds IH]; intros t rs t' Hw; simpl.
  - intros E. injection E as <- <-. auto.
  - destruct (Insert cap fuel t d) as [[r t1] | |] eqn:H1; simpl; try discriminate.
    destruct (Insert_all cap fuel t1 ds) as [[rs1 t2] | |] eqn:H2; simpl;
      try discriminate.
    intros E. injection E as <- <-.
    apply Insert_preserves in H1 as (B1 & P1 & W1 & I1 & _); [| exact Hw].
    apply IH in H2 as (B2 & P2 & W2 & I2); [| exact W1].
    repeat split; auto.
    + congruence.
    + rewrite P2, P1.
      change (accepted (d :: ds) (r :: rs1)) with
        (if r then d :: accepted ds rs1 else accepted ds rs1).
      rewrite app_assoc.
      apply Permutation_app_tail.
      destruct r; simpl.
      * symmetry. apply Permutation_cons_append.
      * rewrite app_nil_r. reflexivity.
Qed.

(** ** Which child takes the entry *)

Lemma try_children_first (m : tree -> outcome (bool * tree)) (p : Vector2) :
  forall qs t,
    (forall q c, In q qs -> child q t = Some c ->
       exists c', m c = Ok (contains (boundaries c) p, c')
                  /\ (contains (boundaries c) p = false -> c' = c)) ->
    (forall q, In q qs -> child q t <> None) ->
    match first_accepting qs t p with
    | Some q =>
      exists c c', child q t = Some c
                   /\ contains (boundaries c) p = true
                   /\ m c = Ok (true, c')
                   /\ try_children m qs t = Ok (true, set_child q (Some c') t)
    | None => try_children m qs t = Ok (false, t)
    end.
Proof.
  induction qs as [| q qs IH]; intros t Hm Hint.
  - reflexivity.
  - unfold first_accepting. cbn [find try_children].
    destruct (child q t) as [c |] eqn:Hq;
      [| exfalso; apply (Hint q); simpl; auto].
    destruct (Hm q c) as (c' & Hmc & Hsame); simpl; auto.
    unfold call_child. rewrite Hq, Hmc. cbn [bind accepts on_opt].
    destruct (contains (boundaries c) p) eqn:Hc.
    + exists c, c'. auto.
    + rewrite (Hsame eq_refl), (set_child_same _ _ Hq).
      apply IH.
      * intros q' c0 Hin. apply Hm. simpl. auto.
      * intros q' Hin. apply Hint. simpl. auto.
Qed.

Lemma regions_ok_Subdivide (t : tree) : regions_ok (Subdivide t).
Proof.
  destruct t as [b ps nw ne se sw]. rewrite Subdivide_eq.
  intros q. destruct q; simpl; eauto.
Qed.

Lemma regions_ok_wf (t : tree) :
  wf cap t = true -> is_null (northWest t) = false -> regions_ok t.
Proof.
  intros Hw Hn.
  destruct (wf_cases _ Hw) as [(b & ps & ->) | (b & ps & nw & ne & se & sw & ->)];
    [discriminate |].
  apply wf_node_iff in Hw. intros q. destruct q; simpl; intuition eauto.
Qed.

Lemma first_accepting_cover (t : tree) (p : Vector2) :
  regions_ok t ->
  contains (boundaries t) p = true ->
  first_accepting insert_order t p <> None.
Proof.
  intros Hr Hc Hnone.
  destruct (child_region_cover _ _ Hc) as (q & Hin & Hq).
  unfold first_accepting in Hnone.
  apply find_none with (x := q) in Hnone; [| exact Hin].
  destruct (Hr q) as (c & Hch & Hb).
  rewrite Hch in Hnone. simpl in Hnone. congruence.
Qed.

(** ** Depth and fuel *)

Lemma depth_push_back d (t : tree) : depth (push_back d t) = depth t.
Proof. destruct t. reflexivity. Qed.

Lemma depth_child q (t c : tree) :
  child q t = Some c -> (S (depth c) <= depth t)%nat.
Proof.
  destruct t as [b ps [nw |] [ne |] [se |] [sw |]], q; simpl;
    intros E; try discriminate; injection E as ->; lia.
Qed.

Lemma depth_set_child q (t c c' : tree) :
  child q t = Some c ->
  (depth (set_child q (Some c') t) <= Nat.max (depth t) (S (depth c')))%nat.
Proof.
  destruct t as [b ps [nw |] [ne |] [se |] [sw |]], q; simpl;
    intros E; try discriminate; lia.
Qed.

Lemma Insert_fresh fuel b (d : entry) :
  (0 < cap)%nat ->
  Insert cap (S fuel) (PointQuadTree_new b) d =
  Ok (contains b (point d),
      if contains b (point d) then push_back d (PointQuadTree_new b)
      else PointQuadTree_new b).
Proof.
  intros Hcap. rewrite Insert_unfold. simpl.
  destruct (contains b (point d)); simpl; [| reflexivity].
  destruct cap; [lia | reflexivity].
Qed.

(** With a positive bucket size and fuel beyond the depth, [Insert]
    returns, and it returns whether the region contains the point. *)
Lemma Insert_total fuel :
  forall (t : tree) d,
    (0 < cap)%nat ->
    wf cap t = true ->
    (depth t + 2 <= fuel)%nat ->
    exists t',
      Insert cap fuel t d = Ok (contains (boundaries t) (point d), t')
      /\ (contains (boundaries t) (point d) = false -> t' = t)
      /\ (depth t' <= S (depth t))%nat.
Proof.
  induction fuel as [| fuel IH]; intros t d Hcap Hw Hf; [lia |].
  rewrite Insert_unfold.
  destruct (contains (boundaries t) (point d)) eqn:Hc; cbn [negb].
  2: { exists t. auto. }
  destruct (length (points t) <? cap)%nat eqn:Hl.
  { exists (push_back d t). rewrite depth_push_back.
    repeat split; auto. discriminate. }
  set (t0 := if is_null (northWest t) then Subdivide t else t).
  assert (Hb0 : boundaries t0 = boundaries t).
  { subst t0. destruct (is_null (northWest t)); [| reflexivity].
    destruct t. reflexivity. }
  assert (Hr0 : regions_ok t0).
  { subst t0. destruct (is_null (northWest t)) eqn:Hn.
    - apply regions_ok_Subdivide.
    - apply regions_ok_wf; auto. }
  assert (Hkids : forall q c, child q t0 = Some c ->
            exists c',
              Insert cap fuel c d = Ok (contains (boundaries c) (point d), c')
              /\ (contains (boundaries c) (point d) = false -> c' = c)
              /\ (Nat.max (depth t0) (S (depth c')) <= S (depth t))%nat).
  { subst t0. intros q c Hq. destruct (is_null (northWest t)) eqn:Hn.
    - destruct t as [b ps nw ne se sw]. rewrite Subdivide_eq in Hq.
      assert (Hleaf : depth (Subdivide (mkPointQuadTree b ps nw ne se sw)) = 1%nat)
        by reflexivity.
      rewrite Hleaf.
      destruct fuel as [| fuel]; [lia |].
      assert (Hc' : c = PointQuadTree_new (child_region q b))
        by (destruct q; simpl in Hq; injection Hq as <-; reflexivity).
      subst c. rewrite Insert_fresh by exact Hcap. simpl boundaries.
      destruct (contains (child_region q b) (point d)).
      + eexists. repeat split; [discriminate | simpl; lia].
      + eexists. repeat split. simpl. lia.
    - destruct (IH c d Hcap) as (c' & Hi & Hs & Hd).
      + apply wf_child with q t; auto.
      + pose proof (depth_child q t Hq). lia.
      + exists c'. repeat split; auto.
        pose proof (depth_child q t Hq). lia. }
  pose proof (try_children_first (fun c => Insert cap fuel c d) (point d)
                insert_order t0) as Hfirst.
  destruct (first_accepting insert_order t0 (point d)) as [q |] eqn:Hfa.
  - destruct Hfirst as (c & c' & Hq & Hcc & Hmc & Htry).
    + intros q0 c0 _ Hq0. destruct (Hkids q0 c0 Hq0) as (c1 & H1 & H2 & _). eauto.
    + intros q0 _. destruct (Hr0 q0) as (c0 & -> & _). discriminate.
    + exists (set_child q (Some c') t0). rewrite Htry.
      repeat split; [discriminate |].
      destruct (Hkids q c Hq) as (c1 & H1 & _ & Hd).
      rewrite Hmc, Hcc in H1. injection H1 as <-.
      pose proof (depth_set_child q t0 c' Hq). lia.
  - exfalso. revert Hfa. apply first_accepting_cover; auto.
    rewrite Hb0. exact Hc.
Qed.

Lemma Insert_all_total fuel :
  forall ds (t : tree),
    (0 < cap)%nat ->
    wf cap t = true ->
    (depth t + length ds + 2 <= fuel)%nat ->
    exists t',
      Insert_all cap fuel t ds =
      Ok (map (fun d => contains (boundaries t) (point d)) ds, t').
Proof.
  induction ds as [| d ds IH]; intros t Hcap Hw Hf; simpl in *.
  - eauto.
  - destruct (Insert_total (fuel := fuel) t d Hcap Hw) as (t1 & H1 & _ & Hd);
      [lia |].
    rewrite H1. simpl.
    apply Insert_preserves in H1 as (B1 & _ & W1 & _); [| exact Hw].
    destruct (IH t1 Hcap W1) as (t2 & H2); [lia |].
    rewrite H2, B1. simpl. eauto.
Qed.

(** ** The range query *)

Lemma scan_points_eq range (ps acc : list entry) :
  scan_points range ps acc = acc ++ filter (ContainsPoint range) ps.
Proof.
  unfold scan_points. revert acc.
  induction ps as [| d ps IH]; intros acc; simpl.
  - rewrite app_nil_r. reflexivity.
  - rewrite IH. destruct (ContainsPoint range d).
    + rewrite <- app_assoc. reflexivity.
    + reflexivity.
Qed.

(** On a node whose pointers are all null or all set, the query returns,
    leaves the node as it was and appends [answer] to the vector. *)
Lemma QueryRange_private_recursive_answer range (t : tree) :
  shape t = true ->
  forall acc,
    QueryRange_private_recursive t range acc = Ok (t, acc ++ answer range t).
Proof.
  induction t as [b ps nw ne se sw IHnw IHne IHse IHsw] using PointQuadTree_ind.
  intros Hs acc. cbn [QueryRange_private_recursive answer].
  destruct (Intersects_AABB b range); cbn [negb].
  2: { rewrite app_nil_r. reflexivity. }
  rewrite scan_points_eq.
  destruct nw as [nw |], ne as [ne |], se as [se |], sw as [sw |];
    simpl in Hs; try discriminate Hs.
  - simpl in IHnw, IHne, IHse, IHsw. bool_to_prop.
    destruct Hs as (((Hnw & Hne) & Hse) & Hsw).
    rewrite (IHne Hne). cbn [bind]. rewrite (IHnw Hnw). cbn [bind].
    rewrite (IHse Hse). cbn [bind]. rewrite (IHsw Hsw). cbn [bind on_opt].
    rewrite <- !app_assoc. reflexivity.
  - cbn [on_opt]. rewrite !app_nil_r. reflexivity.
Qed.

Lemma filter_disjoint (b range : Rect_AABB) (l : list entry) :
  forallb (ContainsPoint b) l = true ->
  Intersects_AABB b range = false ->
  filter (ContainsPoint range) l = [].
Proof.
  intros Hall Hdis. induction l as [| d l IH]; simpl in *; [reflexivity |].
  apply andb_true_iff in Hall as (Hd & Hl).
  destruct (ContainsPoint range d) eqn:Hr.
  - unfold ContainsPoint in *.
    rewrite (contains_Intersects_AABB _ _ _ Hd Hr) in Hdis. discriminate.
  - apply IH. exact Hl.
Qed.

(** Pruning loses nothing: the answer is every stored entry inside the
    range, in the order the entries are stored. *)
Lemma answer_filter range (t : tree) :
  within t = true ->
  answer range t = filter (ContainsPoint range) (entries t).
Proof.
  induction t as [b ps nw ne se sw IHnw IHne IHse IHsw] using PointQuadTree_ind.
  intros Hi. apply within_iff in Hi as (He & Hnw & Hne & Hse & Hsw).
  cbn [answer]. destruct (Intersects_AABB b range) eqn:Hx; cbn [negb].
  - cbn [entries]. rewrite !filter_app.
    f_equal. f_equal; [| f_equal; [| f_equal]].
    + destruct ne; simpl in *; auto.
    + destruct nw; simpl in *; auto.
    + destruct se; simpl in *; auto.
    + destruct sw; simpl in *; auto.
  - symmetry. apply filter_disjoint with b; assumption.
Qed.

Lemma filter_Permutation (A : Type) (f : A -> bool) (l l' : list A) :
  Permutation l l' -> Permutation (filter f l) (filter f l').
Proof.
  induction 1 as [| a l l' _ IH | a a' l | l l' l'' _ IH1 _ IH2]; simpl.
  - constructor.
  - destruct (f a); [constructor |]; exact IH.
  - destruct (f a), (f a'); try reflexivity. constructor.
  - transitivity (filter f l'); assumption.
Qed.

Lemma QueryRange_filter range (t : tree) :
  shape t = true ->
  within t = true ->
  QueryRange t range = Ok (t, filter (ContainsPoint range) (entries t)).
Proof.
  intros Hs Hi. unfold QueryRange.
  rewrite QueryRange_private_recursive_answer by exact Hs.
  rewrite answer_filter by exact Hi. reflexivity.
Qed.

(** ** Trees built by [Insert] from a fresh root *)

Lemma built_invariants fuel b ds rs (t : tree) :
  Insert_all cap fuel (PointQuadTree_new b) ds = Ok (rs, t) ->
  boundaries t = b
  /\ Permutation (entries t) (accepted ds rs)
  /\ wf cap t = true /\ shape t = true /\ within t = true.
Proof.
  intros H.
  apply Insert_all_preserves in H as (B & P & W & I); [| apply wf_new].
  simpl in P. rewrite app_nil_r in P.
  repeat split; auto using wf_shape.
Qed.

Lemma accepted_all_true (ds : list entry) :
  accepted ds (map (fun _ => true) ds) = ds.
Proof. induction ds as [| d ds IH]; simpl; congruence. Qed.

Lemma map_contains_true b (ds : list entry) :
  forallb (ContainsPoint b) ds = true ->
  map (fun d => contains b (point d)) ds = map (fun _ => true) ds.
Proof.
  induction ds as [| d ds IH]; simpl; [reflexivity |].
  intros H. apply andb_true_iff in H as (Hd & Hds).
  unfold ContainsPoint in Hd. rewrite Hd, IH by exact Hds. reflexivity.
Qed.

Lemma filter_all (A : Type) (f : A -> bool) (l : list A) :
  forallb f l = true -> filter f l = l.
Proof.
  induction l as [| a l IH]; simpl; [reflexivity |].
  intros H. apply andb_true_iff in H as (Ha & Hl).
  rewrite Ha, IH by exact Hl. reflexivity.
Qed.

Lemma firstn_firstn_app (A : Type) (n : nat) (l l' : list A) :
  firstn n (firstn n l ++ l') = firstn n (l ++ l').
Proof.
  revert l. induction n as [| n IH]; intros l; [reflexivity |].
  destruct l as [| a l]; simpl; [reflexivity |].
  rewrite IH. reflexivity.
Qed.

(** Entries that fit go to the bucket of the leaf, in order. *)
Lemma fill_bucket fuel b :
  forall (ds ps : list entry),
    (length ps + length ds <= cap)%nat ->
    forallb (ContainsPoint b) ds = true ->
    Insert_all cap (S fuel) (mkPointQuadTree b ps None None None None) ds =
    Ok (map (fun _ => true) ds,
        mkPointQuadTree b (ps ++ ds) None None None None).
Proof.
  induction ds as [| d ds IH]; intros ps Hl Hc.
  - simpl. rewrite app_nil_r. reflexivity.
  - cbn [Insert_all]. rewrite Insert_unfold. cbn [boundaries points].
    simpl in Hc, Hl. apply andb_true_iff in Hc as (Hd & Hds).
    unfold ContainsPoint in Hd. rewrite Hd. cbn [negb].
    replace (length ps <? cap)%nat with true
      by (symmetry; apply Nat.ltb_lt; lia).
    cbn [bind push_back]. rewrite IH.
    + cbn [bind map]. rewrite <- app_assoc. reflexivity.
    + rewrite length_app. simpl. lia.
    + exact Hds.
Qed.

Lemma Insert_all_snoc fuel :
  forall ds (t : tree) rs t1 d r t2,
    Insert_all cap fuel t ds = Ok (rs, t1) ->
    Insert cap fuel t1 d = Ok (r, t2) ->
    Insert_all cap fuel t (ds ++ [d]) = Ok (rs ++ [r], t2).
Proof.
  induction ds as [| d0 ds IH]; intros t rs t1 d r t2; simpl.
  - intros E H. injection E as <- <-. rewrite H. reflexivity.
  - destruct (Insert cap fuel t d0) as [[r0 t0] | |]; simpl; try discriminate.
    destruct (Insert_all cap fuel t0 ds) as [[rs0 t0'] | |] eqn:H0; simpl;
      try discriminate.
    intros E H. injection E as <- <-.
    rewrite (IH _ _ _ _ _ _ H0 H). reflexivity.
Qed.

(** The loop over the children touches neither the bucket nor the
    presence of the four children. *)
Lemma try_children_frame (m : tree -> outcome (bool * tree)) :
  forall qs t r t',
    try_children m qs t = Ok (r, t') ->
    points t' = points t
    /\ (is_internal t = true -> is_internal t' = true).
Proof.
  induction qs as [| q qs IH]; intros t r t'; simpl.
  - intros E. injection E as <- <-. auto.
  - destruct (call_child q m t) as [[r1 t1] | |] eqn:Hcall; simpl;
      try discriminate.
    apply call_child_Ok in Hcall as (c & c' & Hq & _ & ->).
    assert (F : points (set_child q (Some c') t) = points t
                /\ (is_internal t = true ->
                    is_internal (set_child q (Some c') t) = true)).
    { split; [apply points_set_child |].
      destruct t as [b ps nw ne se sw], q; simpl in *; subst; auto. }
    destruct r1.
    + intros E. injection E as <- <-. exact F.
    + intros H. apply IH in H as (H1 & H2). destruct F as (F1 & F2).
      split; [congruence | auto].
Qed.

(** Once a node has split, [Insert] never touches its bucket again. *)
Lemma Insert_internal_frozen fuel (t : tree) d r t' :
  wf cap t = true ->
  is_internal t = true ->
  Insert cap fuel t d = Ok (r, t') ->
  points t' = points t /\ is_internal t' = true.
Proof.
  intros Hw Hi. destruct fuel as [| fuel]; [discriminate |].
  rewrite Insert_unfold.
  destruct (contains (boundaries t) (point d)); cbn [negb].
  2: { intros E. injection E as <- <-. auto. }
  destruct (wf_cases _ Hw) as [(b & ps & ->) | (b & ps & nw & ne & se & sw & ->)];
    [discriminate |].
  apply wf_node_iff in Hw as (Hl & _). cbn [points northWest is_null].
  rewrite Hl, Nat.ltb_irrefl.
  intros H. apply try_children_frame in H as (H1 & H2). auto.
Qed.

(** The bucket of a node is the first [QT_NODE_MAX_CAPACITY] entries the
    node took. *)
Lemma Insert_bucket_prefix fuel (t : tree) d r t' :
  wf cap t = true ->
  Insert cap fuel t d = Ok (r, t') ->
  points t' = firstn cap (points t ++ stored r d).
Proof.
  intros Hw. destruct fuel as [| fuel]; [discriminate |].
  assert (Hle : (length (points t) <= cap)%nat).
  { destruct (wf_cases _ Hw) as [(b & ps & ->) | (b & ps & nw & ne & se & sw & ->)].
    - apply wf_leaf_iff in Hw. exact Hw.
    - apply wf_node_iff in Hw. simpl. lia. }
  rewrite Insert_unfold.
  destruct (contains (boundaries t) (point d)); cbn [negb].
  2: { intros E. injection E as <- <-. simpl. rewrite app_nil_r.
       symmetry. apply firstn_all2. exact Hle. }
  destruct (length (points t) <? cap)%nat eqn:Hl.
  { intros E. injection E as <- <-. apply Nat.ltb_lt in Hl.
    destruct t as [b ps nw ne se sw]. simpl in *.
    symmetry. apply firstn_all2. rewrite length_app. simpl. lia. }
  apply Nat.ltb_ge in Hl. intros H.
  apply try_children_frame in H as (H & _). rewrite H.
  assert (E : points (if is_null (northWest t) then Subdivide t else t) = points t)
    by (destruct (is_null (northWest t)); [destruct t |]; reflexivity).
  rewrite E, firstn_app.
  replace (cap - length (points t))%nat with 0%nat by lia.
  rewrite firstn_all2 by exact Hle. simpl. rewrite app_nil_r. reflexivity.
Qed.

Lemma Insert_all_bucket_prefix fuel :
  forall ds (t : tree) rs t',
    wf cap t = true ->
    Insert_all cap fuel t ds = Ok (rs, t') ->
    points t' = firstn cap (points t ++ accepted ds rs).
Proof.
  induction ds as [| d ds IH]; intros t rs t' Hw; simpl.
  - intros E. injection E as <- <-. rewrite app_nil_r.
    destruct (wf_cases _ Hw) as [(b & ps & ->) | (b & ps & nw & ne & se & sw & ->)].
    + apply wf_leaf_iff in Hw. symmetry. apply firstn_all2. exact Hw.
    + apply wf_node_iff in Hw. symmetry. apply firstn_all2. simpl. lia.
  - destruct (Insert cap fuel t d) as [[r t1] | |] eqn:H1; simpl; try discriminate.
    destruct (Insert_all cap fuel t1 ds) as [[rs1 t2] | |] eqn:H2; simpl;
      try discriminate.
    intros E. injection E as <- <-.
    pose proof H1 as P1. apply Insert_bucket_prefix in P1; [| exact Hw].
    apply Insert_preserves in H1 as (_ & _ & W1 & _); [| exact Hw].
    rewrite (IH _ _ _ W1 H2), P1, firstn_firstn_app, <- app_assoc.
    destruct r; reflexivity.
Qed.

(** ** Every node of a tree *)

Lemma in_nodes (n : tree) b ps nw ne se sw :
  In n (nodes (mkPointQuadTree b ps nw ne se sw)) ->
  n = mkPointQuadTree b ps nw ne se sw
  \/ In n (on_opt (@nodes T) [] nw) \/ In n (on_opt (@nodes T) [] ne)
  \/ In n (on_opt (@nodes T) [] se) \/ In n (on_opt (@nodes T) [] sw).
Proof.
  cbn [nodes]. intros [E | H]; [auto |].
  rewrite !in_app_iff in H. tauto.
Qed.

Lemma wf_nodes (t : tree) :
  wf cap t = true -> forall n, In n (nodes t) -> wf cap n = true.
Proof.
  induction t as [b ps nw ne se sw IHnw IHne IHse IHsw] using PointQuadTree_ind.
  intros Hw n Hn. apply in_nodes in Hn as [-> | Hn]; [exact Hw |].
  destruct (wf_cases _ Hw) as [(b' & ps' & E) | (b' & ps' & a & c & e & f & E)];
    injection E as -> -> -> -> -> ->; simpl in Hn.
  - tauto.
  - apply wf_node_iff in Hw. simpl in *. intuition.
Qed.

Lemma within_nodes (t : tree) :
  within t = true -> forall n, In n (nodes t) -> within n = true.
Proof.
  induction t as [b ps nw ne se sw IHnw IHne IHse IHsw] using PointQuadTree_ind.
  intros Hi n Hn. apply in_nodes in Hn as [-> | Hn]; [exact Hi |].
  apply within_iff in Hi as (_ & Hnw & Hne & Hse & Hsw).
  destruct nw, ne, se, sw; simpl in *; intuition.
Qed.

(** ** An internal node hands the entry to one child *)

Lemma Insert_internal_delegates fuel (t : tree) d :
  (0 < cap)%nat ->
  wf cap t = true ->
  is_internal t = true ->
  contains (boundaries t) (point d) = true ->
  (depth t + 1 <= fuel)%nat ->
  exists q c c',
    first_accepting insert_order t (point d) = Some q
    /\ child q t = Some c
    /\ Insert cap fuel c d = Ok (true, c')
    /\ Insert cap (S fuel) t d = Ok (true, set_child q (Some c') t).
Proof.
  intros Hcap Hw Hi Hc Hf.
  assert (Hn : is_null (northWest t) = false).
  { destruct t as [b ps [nw |] ne se sw]; [reflexivity | discriminate]. }
  pose proof (regions_ok_wf _ Hw Hn) as Hr.
  rewrite Insert_unfold, Hc. cbn [negb]. rewrite Hn.
  replace (length (points t) <? cap)%nat with false.
  2: { destruct (wf_cases _ Hw) as [(b & ps & ->) | (b & ps & nw & ne & se & sw & ->)];
         [discriminate |].
       apply wf_node_iff in Hw as (Hl & _). simpl. rewrite Hl.
       symmetry. apply Nat.ltb_irrefl. }
  pose proof (try_children_first (fun c => Insert cap fuel c d) (point d)
                insert_order t) as Hfirst.
  destruct (first_accepting insert_order t (point d)) as [q |] eqn:Hfa.
  - destruct Hfirst as (c & c' & Hq & Hcc & Hmc & Htry).
    + intros q0 c0 _ Hq0.
      destruct (Insert_total (fuel := fuel) c0 d Hcap) as (c1 & H1 & H2 & _).
      * apply wf_child with q0 t; auto.
      * pose proof (depth_child q0 t Hq0). lia.
      * eauto.
    + intros q0 _. destruct (Hr q0) as (c0 & -> & _). discriminate.
    + exists q, c, c'. auto.
  - exfalso. revert Hfa. apply first_accepting_cover; auto.
Qed.

(** ** The properties of the specification *)

(** C1. Entries inserted at a fresh root, all with their point in the
    root's region, are all stored (every [Insert] returns true), and a
    range query on the resulting tree returns exactly those of them whose
    point lies in the range: the result is a permutation of the inserted
    entries filtered by the range.  The bucket size is positive and the
    recursion budget exceeds the number of entries. *)
Theorem QueryRange_returns_inserted_in_range
    fuel b (ds : list entry) (range : Rect_AABB) :
  (0 < cap)%nat ->
  forallb (ContainsPoint b) ds = true ->
  (length ds + 2 <= fuel)%nat ->
  exists t res,
    Insert_all cap fuel (PointQuadTree_new b) ds = Ok (map (fun _ => true) ds, t)
    /\ QueryRange t range = Ok (t, res)
    /\ Permutation res (filter (ContainsPoint range) ds).
Proof.
  intros Hcap Hin Hf.
  destruct (Insert_all_total (fuel := fuel) ds (PointQuadTree_new b) Hcap)
    as (t & Hrun); [apply wf_new | simpl; lia |].
  simpl boundaries in Hrun. rewrite (map_contains_true _ _ Hin) in Hrun.
  destruct (built_invariants _ _ _ Hrun) as (_ & P & _ & Hs & Hi).
  rewrite accepted_all_true in P.
  exists t, (filter (ContainsPoint range) (entries t)).
  repeat split.
  - exact Hrun.
  - apply QueryRange_filter; assumption.
  - apply filter_Permutation. exact P.
Qed.

(** C3. [Insert] of an entry whose point lies outside the node's region
    returns false and leaves the node, with everything below it, exactly
    as it was, whatever the state of the node and for every recursion
    budget that allows the call itself. *)
Theorem Insert_outside_region_rejected fuel (t : tree) (d : entry) :
  contains (boundaries t) (point d) = false ->
  Insert cap (S fuel) t d = Ok (false, t).
Proof.
  intros Hc. rewrite Insert_unfold, Hc. reflexivity.
Qed.

(** C4. [QT_NODE_MAX_CAPACITY + 1] entries inside the region of a fresh
    leaf: the first [QT_NODE_MAX_CAPACITY] fill the bucket and the node is
    still a leaf; the last one splits it once.  The node is then internal,
    its bucket is the first [QT_NODE_MAX_CAPACITY] entries, its four
    children are leaves, the last entry is the only entry of the first
    child, in the order of [Insert], whose region contains it, and a query
    over the node's region returns all the entries. *)
Theorem Insert_overflow_splits_once fuel b (ds : list entry) (d : entry) :
  (0 < cap)%nat ->
  length ds = cap ->
  forallb (ContainsPoint b) (ds ++ [d]) = true ->
  (2 <= fuel)%nat ->
  exists q t,
    Insert_all cap fuel (PointQuadTree_new b) ds =
      Ok (map (fun _ => true) ds, mkPointQuadTree b ds None None None None)
    /\ Insert_all cap fuel (PointQuadTree_new b) (ds ++ [d]) =
      Ok (map (fun _ => true) (ds ++ [d]), t)
    /\ first_accepting insert_order
         (Subdivide (mkPointQuadTree b ds None None None None)) (point d) = Some q
    /\ contains (child_region q b) (point d) = true
    /\ t = set_child q
             (Some (mkPointQuadTree (child_region q b) [d] None None None None))
             (Subdivide (mkPointQuadTree b ds None None None None))
    /\ is_internal t = true
    /\ points t = ds
    /\ (forall q', exists c, child q' t = Some c /\ is_leaf c = true)
    /\ exists res, QueryRange t b = Ok (t, res) /\ Permutation res (ds ++ [d]).
Proof.
  intros Hcap Hlen Hin Hf.
  destruct fuel as [| [| fuel]]; [lia | lia |].
  pose proof Hin as Hin'. rewrite forallb_app in Hin'.
  apply andb_true_iff in Hin' as (Hds & Hd). simpl in Hd.
  rewrite andb_true_r in Hd. unfold ContainsPoint in Hd.
  set (leaf := mkPointQuadTree b ds None None None None).
  assert (Hfill : Insert_all cap (S (S fuel)) (PointQuadTree_new b) ds =
                  Ok (map (fun _ => true) ds, leaf)).
  { apply (fill_bucket (S fuel) b ds []); [simpl; lia | exact Hds]. }
  pose proof (try_children_first (fun c => Insert cap (S fuel) c d) (point d)
                insert_order (Subdivide leaf)) as Hfirst.
  destruct (first_accepting insert_order (Subdivide leaf) (point d))
    as [q |] eqn:Hfa.
  2: { exfalso. revert Hfa. apply first_accepting_cover.
       - apply regions_ok_Subdivide.
       - exact Hd. }
  destruct Hfirst as (c & c' & Hq & Hcc & Hmc & Htry).
  { intros q0 c0 _ Hq0.
    assert (E : c0 = PointQuadTree_new (child_region q0 b))
      by (destruct q0; simpl in Hq0; injection Hq0 as <-; reflexivity).
    subst c0. rewrite Insert_fresh by exact Hcap. simpl boundaries.
    destruct (contains (child_region q0 b) (point d));
      (eexists; split; [reflexivity | intros; first [discriminate | reflexivity]]). }
  { intros q0 _. destruct (regions_ok_Subdivide leaf q0) as (c0 & -> & _).
    discriminate. }
  assert (E : c = PointQuadTree_new (child_region q b))
    by (destruct q; simpl in Hq; injection Hq as <-; reflexivity).
  subst c. simpl boundaries in Hcc.
  rewrite Insert_fresh, Hcc in Hmc by exact Hcap.
  injection Hmc as <-.
  assert (Hlast : Insert cap (S (S fuel)) leaf d =
                  Ok (true, set_child q
                              (Some (push_back d (PointQuadTree_new (child_region q b))))
                              (Subdivide leaf))).
  { rewrite Insert_unfold. subst leaf. cbn [boundaries points northWest is_null].
    rewrite Hd, Hlen, Nat.ltb_irrefl. cbn [negb]. exact Htry. }
  pose proof Hfill as Hrun.
  eapply Insert_all_snoc in Hrun; [| exact Hlast].
  replace (map (fun _ : entry => true) ds ++ [true])
    with (map (fun _ : entry => true) (ds ++ [d])) in Hrun
    by (rewrite map_app; reflexivity).
  destruct (built_invariants _ _ _ Hrun) as (Hb & P & _ & Hs & Hi).
  rewrite accepted_all_true in P.
  set (t := set_child q
              (Some (push_back d (PointQuadTree_new (child_region q b))))
              (Subdivide leaf)) in *.
  exists q, t. split; [exact Hfill |]. split; [exact Hrun |].
  split; [reflexivity |]. split; [exact Hcc |]. split; [reflexivity |].
  split; [destruct q; reflexivity |].
  split; [destruct q; reflexivity |].
  split; [intros q'; destruct q, q'; simpl; eauto |].
  exists (filter (ContainsPoint b) (entries t)). split.
  - apply QueryRange_filter; assumption.
  - transitivity (filter (ContainsPoint b) (ds ++ [d])).
    + apply filter_Permutation. exact P.
    + rewrite (filter_all _ _ Hin). reflexivity.
Qed.

(** C5. In a tree built by [Insert] from a fresh root, every node is
    either a leaf whose bucket holds at most [QT_NODE_MAX_CAPACITY]
    entries or has its four children and a bucket of exactly
    [QT_NODE_MAX_CAPACITY] entries; the root's bucket is the first
    [QT_NODE_MAX_CAPACITY] entries it accepted; and an [Insert] on a node
    that has split leaves that node's bucket as it was and the node
    internal. *)
Theorem split_node_bucket_frozen fuel b (ds : list entry) rs (t : tree) :
  Insert_all cap fuel (PointQuadTree_new b) ds = Ok (rs, t) ->
  points t = firstn cap (accepted ds rs)
  /\ forall n, In n (nodes t) ->
       (is_leaf n = true /\ (length (points n) <= cap)%nat
        \/ is_internal n = true /\ length (points n) = cap)
       /\ (is_internal n = true ->
           forall fuel' d r n',
             Insert cap fuel' n d = Ok (r, n') ->
             points n' = points n /\ is_internal n' = true).
Proof.
  intros Hrun. split.
  - apply Insert_all_bucket_prefix in Hrun; [exact Hrun | apply wf_new].
  - destruct (built_invariants _ _ _ Hrun) as (_ & _ & Hw & _ & _).
    intros n Hn. pose proof (wf_nodes _ Hw _ Hn) as Hwn. split.
    + destruct (wf_cases _ Hwn) as [(b' & ps & ->) | (b' & ps & nw & ne & se & sw & ->)].
      * left. apply wf_leaf_iff in Hwn. auto.
      * right. apply wf_node_iff in Hwn. simpl. tauto.
    + intros Hi fuel' d r n'. apply Insert_internal_frozen; assumption.
Qed.

(** C6. After any run of [Insert] calls on a fresh root, every entry
    stored at a node or below it has its point in that node's region. *)
Theorem entries_inside_node_region fuel b (ds : list entry) rs (t : tree) :
  Insert_all cap fuel (PointQuadTree_new b) ds = Ok (rs, t) ->
  forall n, In n (nodes t) ->
  forall e, In e (entries n) ->
    contains (boundaries n) (point e) = true.
Proof.
  intros Hrun n Hn e He.
  destruct (built_invariants _ _ _ Hrun) as (_ & _ & _ & _ & Hi).
  pose proof (within_entries _ (within_nodes _ Hi _ Hn)) as Hall.
  rewrite forallb_forall in Hall. apply (Hall e He).
Qed.

(** C7. [Insert] on an internal node of a tree built by [Insert], with a
    point inside the node's region: the entry goes to the first child, in
    the order north-west, north-east, south-east, south-west, whose region
    contains the point.  The call on that child returns true and stores
    the entry there: the child keeps its region and its stored entries
    become the old ones with the new entry added.  The node returns what
    that child returned, and the node it leaves behind differs from the
    old one in that child only: the children tried before it, the
    children after it and the node's own bucket stay as they were. *)
Theorem Insert_delegates_to_first_child fuel (t : tree) (d : entry) :
  (0 < cap)%nat ->
  wf cap t = true ->
  is_internal t = true ->
  contains (boundaries t) (point d) = true ->
  (depth t + 1 <= fuel)%nat ->
  exists q c c',
    first_accepting insert_order t (point d) = Some q
    /\ child q t = Some c
    /\ Insert cap fuel c d = Ok (true, c')
    /\ boundaries c' = boundaries c
    /\ Permutation (entries c') (d :: entries c)
    /\ Insert cap (S fuel) t d = Ok (true, set_child q (Some c') t)
    /\ points (set_child q (Some c') t) = points t
    /\ forall q', q' <> q ->
         child q' (set_child q (Some c') t) = child q' t.
Proof.
  intros Hcap Hw Hi Hc Hf.
  destruct (Insert_internal_delegates _ _ Hcap Hw Hi Hc Hf)
    as (q & c & c' & Hfa & Hq & Hch & Hins).
  pose proof Hch as Hrel.
  apply Insert_preserves in Hrel as (B & P & _);
    [| apply wf_child with q t; assumption].
  exists q, c, c'. repeat split; auto.
  - apply points_set_child.
  - intros q' Hne. apply child_set_child_other. congruence.
Qed.

(** C8. A range query leaves the tree as it was: on every tree whose
    nodes have no child or all four, [QueryRange] returns the same tree
    next to its result, and the result is what the recursion appends to
    the empty vector [QueryRange] starts from. *)
Theorem QueryRange_leaves_tree_unchanged (t : tree) (range : Rect_AABB) :
  shape t = true ->
  exists res,
    QueryRange t range = Ok (t, res)
    /\ forall acc,
         QueryRange_private_recursive t range acc = Ok (t, acc ++ res).
Proof.
  intros Hs. exists (answer range t). split.
  - unfold QueryRange.
    rewrite QueryRange_private_recursive_answer by exact Hs. reflexivity.
  - intros acc. apply QueryRange_private_recursive_answer. exact Hs.
Qed.


(** With the tests of this file the parametric query is the query. *)
Lemma QueryRange_private_recursive_with_closed range (t : tree) :
  forall acc,
    QueryRange_private_recursive_with Intersects_AABB (@ContainsPoint T)
      t range acc =
    QueryRange_private_recursive t range acc.
Proof.
  induction t as [b ps nw ne se sw IHnw IHne IHse IHsw] using PointQuadTree_ind.
  intros acc.
  cbn [QueryRange_private_recursive_with QueryRange_private_recursive].
  destruct (Intersects_AABB b range); cbn [negb]; [| reflexivity].
  change (scan_points_with (@ContainsPoint T) range ps acc)
    with (scan_points range ps acc).
  destruct ne as [ne |]; [| reflexivity]. simpl in IHne. rewrite IHne.
  destruct (QueryRange_private_recursive ne range (scan_points range ps acc))
    as [[ne1 r1] | |]; cbn [bind]; try reflexivity.
  destruct nw as [nw |]; [| reflexivity]. simpl in IHnw. rewrite IHnw.
  destruct (QueryRange_private_recursive nw range r1)
    as [[nw1 r2] | |]; cbn [bind]; try reflexivity.
  destruct se as [se |]; [| reflexivity]. simpl in IHse. rewrite IHse.
  destruct (QueryRange_private_recursive se range r2)
    as [[se1 r3] | |]; cbn [bind]; try reflexivity.
  destruct sw as [sw |]; [| reflexivity]. simpl in IHsw. rewrite IHsw.
  reflexivity.
Qed.




(** C10. The last [return false] of [Insert] is not reached for a point
    inside the region of an internal node of a tree built by [Insert]:
    the regions [Subdivide] computes cover the node's region, one of the
    calls on the children returns true, and so does the node. *)
Theorem Insert_fallback_unreachable fuel (t : tree) (d : entry) :
  (0 < cap)%nat ->
  wf cap t = true ->
  is_internal t = true ->
  contains (boundaries t) (point d) = true ->
  (depth t + 1 <= fuel)%nat ->
  (exists q, In q insert_order
             /\ contains (child_region q (boundaries t)) (point d) = true)
  /\ (exists q c c', child q t = Some c
                     /\ Insert cap fuel c d = Ok (true, c'))
  /\ exists t', Insert cap (S fuel) t d = Ok (true, t').
Proof.
  intros Hcap Hw Hi Hc Hf. split; [apply child_region_cover; exact Hc |].
  destruct (Insert_internal_delegates _ _ Hcap Hw Hi Hc Hf)
    as (q & c & c' & _ & Hq & Hch & Hins).
  split; eauto.
Qed.

(** ** Further properties of [Insert] and [QueryRange] *)

Lemma accepted_map_filter (f : entry -> bool) (ds : list entry) :
  accepted ds (map f ds) = filter f ds.
Proof.
  induction ds as [| d ds IH]; simpl; [reflexivity |].
  rewrite IH. reflexivity.
Qed.

Lemma accepted_length (ds : list entry) (rs : list bool) :
  (length (accepted ds rs) <= length ds)%nat.
Proof.
  revert rs. induction ds as [| d ds IH]; intros [| r rs]; simpl; try lia.
  specialize (IH rs). destruct r; simpl; lia.
Qed.

Lemma is_internal_child q (t : tree) :
  is_internal t = true -> exists c, child q t = Some c.
Proof.
  destruct t as [b ps [nw |] [ne |] [se |] [sw |]], q; simpl;
    try discriminate; eauto.
Qed.

Lemma is_internal_set_child q c (t : tree) :
  is_internal t = true -> is_internal (set_child q (Some c) t) = true.
Proof.
  destruct t as [b ps [nw |] [ne |] [se |] [sw |]], q; simpl;
    try discriminate; auto.
Qed.

(** The node the loop over the children starts from: split if it was a
    leaf, and in both cases internal and within the invariants. *)
Lemma descend_ready d (t : tree) :
  wf cap t = true ->
  (cap <= length (points t))%nat ->
  let t0 := if is_null (northWest t) then Subdivide t else t in
  rel cap d false t t0 /\ is_internal t0 = true /\ regions_ok t0.
Proof.
  intros Hw Hl. destruct (is_null (northWest t)) eqn:Hn; cbv zeta.
  - split; [apply rel_Subdivide; auto |].
    split; [destruct t; reflexivity | apply regions_ok_Subdivide].
  - split; [apply rel_refl; auto |].
    split; [| apply regions_ok_wf; auto].
    destruct (wf_cases _ Hw) as [(b & ps & ->) | (b & ps & nw & ne & se & sw & ->)];
      [discriminate | reflexivity].
Qed.

Lemma try_children_no_null d (m : tree -> outcome (bool * tree)) :
  (forall c, wf cap c = true -> m c <> NullDeref) ->
  (forall c r c', wf cap c = true -> m c = Ok (r, c') -> rel cap d r c c') ->
  forall qs t,
    wf cap t = true ->
    is_internal t = true ->
    contains (boundaries t) (point d) = true ->
    try_children m qs t <> NullDeref.
Proof.
  intros Hnull Hrel. induction qs as [| q qs IH]; intros t Hw Hi Hc.
  - discriminate.
  - cbn [try_children]. unfold call_child.
    destruct (is_internal_child q _ Hi) as (c & Hq). rewrite Hq.
    pose proof (wf_child _ _ Hw Hq) as Hwc.
    destruct (m c) as [[r c'] | |] eqn:Hm; cbn [bind].
    + destruct r; [discriminate |].
      apply IH.
      * assert (R : rel cap d false t (set_child q (Some c') t))
          by (apply rel_set_child with c; auto).
        apply R.
      * apply is_internal_set_child. exact Hi.
      * rewrite boundaries_set_child. exact Hc.
    + exfalso. apply (Hnull c Hwc Hm).
    + discriminate.
Qed.

Lemma try_children_exhausts (m : tree -> outcome (bool * tree)) (p : Vector2) :
  forall qs t q0,
    is_internal t = true ->
    (forall q c, child q t = Some c ->
       if contains (boundaries c) p then m c = OutOfFuel
       else m c = OutOfFuel \/ m c = Ok (false, c)) ->
    first_accepting qs t p = Some q0 ->
    try_children m qs t = OutOfFuel.
Proof.
  induction qs as [| q qs IH]; intros t q0 Hi Hm Hfa; [discriminate |].
  cbn [try_children]. unfold call_child.
  destruct (is_internal_child q _ Hi) as (c & Hq). rewrite Hq.
  specialize (Hm q c Hq) as Hmc.
  unfold first_accepting in Hfa. cbn [find] in Hfa.
  rewrite Hq in Hfa. cbn [accepts on_opt] in Hfa.
  destruct (contains (boundaries c) p).
  - rewrite Hmc. reflexivity.
  - destruct Hmc as [-> | ->]; [reflexivity |].
    cbn [bind]. rewrite (set_child_same _ _ Hq).
    apply IH with q0; assumption.
Qed.

Lemma Insert_exhausts_fuel :
  cap = 0%nat ->
  forall fuel (t : tree) d,
    wf cap t = true ->
    contains (boundaries t) (point d) = true ->
    Insert cap fuel t d = OutOfFuel.
Proof.
  intros Hcap. induction fuel as [| fuel IH]; intros t d Hw Hc; [reflexivity |].
  rewrite Insert_unfold, Hc. cbn [negb].
  replace (length (points t) <? cap)%nat with false
    by (symmetry; apply Nat.ltb_ge; lia).
  destruct (descend_ready d t Hw) as (R0 & Hi0 & Hr0); [lia |].
  set (t0 := if is_null (northWest t) then Subdivide t else t) in *.
  destruct R0 as (Hb0 & _ & Hw0 & _).
  destruct (first_accepting insert_order t0 (point d)) as [q0 |] eqn:Hfa.
  2: { exfalso. revert Hfa. apply first_accepting_cover; auto.
       rewrite Hb0. exact Hc. }
  apply try_children_exhausts with (p := point d) (q0 := q0); auto.
  intros q c Hq. pose proof (wf_child _ _ Hw0 Hq) as Hwc.
  destruct (contains (boundaries c) (point d)) eqn:Hcc.
  - apply IH; assumption.
  - destruct fuel as [| fuel]; [left; reflexivity |].
    right. rewrite Insert_unfold, Hcc. reflexivity.
Qed.

Lemma wf_depth_entries (t : tree) :
  wf cap t = true -> (depth t * cap <= length (entries t))%nat.
Proof.
  induction t as [b ps nw ne se sw IHnw IHne IHse IHsw] using PointQuadTree_ind.
  intros Hw.
  destruct (wf_cases _ Hw) as [(b' & ps' & E) | (b' & ps' & a & c & e & f & E)];
    injection E as -> -> -> -> -> ->.
  - simpl. lia.
  - apply wf_node_iff in Hw as (Hl & _ & Ha & Hc & He & Hf).
    simpl in IHnw, IHne, IHse, IHsw.
    specialize (IHnw Ha). specialize (IHne Hc).
    specialize (IHse He). specialize (IHsw Hf).
    cbn [entries on_opt]. rewrite !length_app.
    change (depth (mkPointQuadTree b' ps' (Some a) (Some c) (Some e) (Some f)))
      with (S (Nat.max (Nat.max (depth a) (depth c))
                       (Nat.max (depth e) (depth f)))).
    cbn [Nat.mul]. rewrite Hl.
    destruct (Nat.max_spec (depth a) (depth c)) as [[_ ->] | [_ ->]];
      destruct (Nat.max_spec (depth e) (depth f)) as [[_ ->] | [_ ->]];
      match goal with
      | |- context [Nat.max ?u ?v] =>
        destruct (Nat.max_spec u v) as [[_ ->] | [_ ->]]
      end; lia.
Qed.

Lemma wf_nodes_halfDimension (t : tree) :
  wf cap t = true ->
  forall n, In n (nodes t) ->
    halfDimension (boundaries n) = halfDimension (boundaries t).
Proof.
  induction t as [b ps nw ne se sw IHnw IHne IHse IHsw] using PointQuadTree_ind.
  intros Hw n Hn. apply in_nodes in Hn as [-> | Hn]; [reflexivity |].
  destruct (wf_cases _ Hw) as [(b' & ps' & E) | (b' & ps' & a & c & e & f & E)];
    injection E as -> -> -> -> -> ->; simpl in Hn.
  - tauto.
  - apply wf_node_iff in Hw
      as (_ & (Ba & Bc & Be & Bf) & Ha & Hc & He & Hf).
    simpl in IHnw, IHne, IHse, IHsw. cbn [boundaries].
    destruct Hn as [Hn | [Hn | [Hn | Hn]]].
    + rewrite (IHnw Ha n Hn), Ba. apply child_region_halfDimension.
    + rewrite (IHne Hc n Hn), Bc. apply child_region_halfDimension.
    + rewrite (IHse He n Hn), Be. apply child_region_halfDimension.
    + rewrite (IHsw Hf n Hn), Bf. apply child_region_halfDimension.
Qed.

(** X2. A call of [Insert] that returns adds the entry to what the tree
    stores exactly when it returns true, once, and changes nothing else:
    the stored entries are a permutation of the old ones with the new one
    in front, their number grows by one, and the region stays; when it
    returns false the stored entries and their number are as before. *)
Theorem Insert_stores_iff_true fuel (t : tree) (d : entry) r t' :
  wf cap t = true ->
  Insert cap fuel t d = Ok (r, t') ->
  boundaries t' = boundaries t
  /\ Permutation (entries t') (if r then d :: entries t else entries t)
  /\ length (entries t') = (length (entries t) + if r then 1 else 0)%nat.
Proof.
  intros Hw H. apply Insert_preserves in H as (B & P & _); [| exact Hw].
  assert (P' : Permutation (entries t') (if r then d :: entries t else entries t))
    by (destruct r; exact P).
  repeat split; auto.
  rewrite (Permutation_length P'). destruct r; simpl; lia.
Qed.

(** X3. Insert, then query: after a call of [Insert] that returns, a range
    query gives what it gave before the call, together with the new entry
    exactly when [Insert] returned true and the entry's point lies in the
    range. *)
Theorem Insert_then_QueryRange fuel (t : tree) (d : entry) r t' range :
  wf cap t = true ->
  within t = true ->
  Insert cap fuel t d = Ok (r, t') ->
  exists res res',
    QueryRange t range = Ok (t, res)
    /\ QueryRange t' range = Ok (t', res')
    /\ Permutation res'
         ((if r && ContainsPoint range d then [d] else []) ++ res).
Proof.
  intros Hw Hi H.
  apply Insert_preserves in H as (_ & P & Hw' & Hi' & _); [| exact Hw].
  exists (filter (ContainsPoint range) (entries t)),
         (filter (ContainsPoint range) (entries t')).
  split; [apply QueryRange_filter; auto using wf_shape |].
  split; [apply QueryRange_filter; auto using wf_shape |].
  rewrite (filter_Permutation (ContainsPoint range) P), filter_app.
  destruct r; simpl; [| reflexivity].
  destruct (ContainsPoint range d); reflexivity.
Qed.

(** X4. One null check is enough (the comment of lines 71-72): on a node
    that keeps the invariants of [Insert], no call of [Insert]
    dereferences a null child pointer, whatever the bucket size and the
    recursion budget. *)
Theorem Insert_never_dereferences_null fuel (t : tree) (d : entry) :
  wf cap t = true ->
  Insert cap fuel t d <> NullDeref.
Proof.
  revert t. induction fuel as [| fuel IH]; intros t Hw; [discriminate |].
  rewrite Insert_unfold.
  destruct (contains (boundaries t) (point d)) eqn:Hc; cbn [negb];
    [| discriminate].
  destruct (length (points t) <? cap)%nat eqn:Hl; [discriminate |].
  apply Nat.ltb_ge in Hl.
  destruct (descend_ready d t Hw Hl) as ((Hb0 & _ & Hw0 & _) & Hi0 & _).
  apply try_children_no_null with (d := d); auto.
  - intros c r c' Hwc H. apply Insert_preserves with fuel; assumption.
  - rewrite Hb0. exact Hc.
Qed.

(** X6. The depth of a tree built by [Insert] from a fresh root, times the
    bucket size, is at most the number of entries the calls stored, hence
    at most the number of calls. *)
Theorem depth_bounded_by_stored fuel b (ds : list entry) rs (t : tree) :
  Insert_all cap fuel (PointQuadTree_new b) ds = Ok (rs, t) ->
  (depth t * cap <= length (accepted ds rs))%nat
  /\ (depth t * cap <= length ds)%nat.
Proof.
  intros Hrun.
  destruct (built_invariants _ _ _ Hrun) as (_ & P & Hw & _ & _).
  pose proof (wf_depth_entries _ Hw) as Hd.
  rewrite (Permutation_length P) in Hd.
  pose proof (accepted_length ds rs). lia.
Qed.

(** X7. The cells never shrink: in a tree built by [Insert] from a fresh
    root, every node, at every depth, has the half-extents of the root. *)
Theorem nodes_keep_root_halfDimension fuel b (ds : list entry) rs (t : tree) :
  Insert_all cap fuel (PointQuadTree_new b) ds = Ok (rs, t) ->
  forall n, In n (nodes t) ->
    halfDimension (boundaries n) = halfDimension b.
Proof.
  intros Hrun n Hn.
  destruct (built_invariants _ _ _ Hrun) as (Hb & _ & Hw & _ & _).
  rewrite (wf_nodes_halfDimension _ Hw _ Hn), Hb. reflexivity.
Qed.

(** X8. While the root has not split, a query answers in insertion order:
    for at most [QT_NODE_MAX_CAPACITY] entries inside the root's region,
    the result is the list of inserted entries filtered by the range, in
    the order of the calls. *)
Theorem QueryRange_unsplit_insertion_order fuel b (ds : list entry) range :
  (length ds <= cap)%nat ->
  forallb (ContainsPoint b) ds = true ->
  exists t,
    Insert_all cap (S fuel) (PointQuadTree_new b) ds =
      Ok (map (fun _ => true) ds, t)
    /\ is_leaf t = true
    /\ QueryRange t range = Ok (t, filter (ContainsPoint range) ds).
Proof.
  intros Hl Hin.
  exists (mkPointQuadTree b ds None None None None).
  split; [apply (fill_bucket fuel b ds []); [simpl; lia | exact Hin] |].
  split; [reflexivity |].
  unfold QueryRange. cbn [QueryRange_private_recursive].
  destruct (Intersects_AABB b range) eqn:Hx; cbn [negb].
  - rewrite scan_points_eq. reflexivity.
  - assert (E : filter (ContainsPoint range) ds = [])
      by (apply filter_disjoint with b; assumption).
    rewrite E. reflexivity.
Qed.

(** X9. A run of [Insert] calls with entries inside and outside the root's
    region: with a positive bucket size and enough recursion budget every
    call returns whether the root's region contains the point, and a
    query returns exactly the entries inside both the root's region and
    the range; the entries outside the root's region are dropped. *)
Theorem Insert_all_drops_outside fuel b (ds : list entry) range :
  (0 < cap)%nat ->
  (length ds + 2 <= fuel)%nat ->
  exists t res,
    Insert_all cap fuel (PointQuadTree_new b) ds =
      Ok (map (fun d => contains b (point d)) ds, t)
    /\ QueryRange t range = Ok (t, res)
    /\ Permutation res
         (filter (ContainsPoint range) (filter (ContainsPoint b) ds)).
Proof.
  intros Hcap Hf.
  destruct (Insert_all_total (fuel := fuel) ds (PointQuadTree_new b) Hcap)
    as (t & Hrun); [apply wf_new | simpl; lia |].
  simpl boundaries in Hrun.
  destruct (built_invariants _ _ _ Hrun) as (_ & P & _ & Hs & Hi).
  change (fun d : entry => contains b (point d)) with (ContainsPoint (T := T) b) in P.
  rewrite accepted_map_filter in P.
  exists t, (filter (ContainsPoint range) (entries t)).
  split; [exact Hrun |].
  split; [apply QueryRange_filter; assumption |].
  apply filter_Permutation. exact P.
Qed.

(** ** What a returning call returns, for every recursion budget *)

Lemma try_children_Ok_first (m : tree -> outcome (bool * tree)) (p : Vector2) :
  forall qs t r t',
    (forall q c r c', child q t = Some c -> m c = Ok (r, c') ->
       r = contains (boundaries c) p /\ (r = false -> c' = c)) ->
    try_children m qs t = Ok (r, t') ->
    match first_accepting qs t p with
    | Some q =>
      r = true
      /\ exists c c', child q t = Some c /\ m c = Ok (true, c')
                      /\ t' = set_child q (Some c') t
    | None => r = false /\ t' = t
    end.
Proof.
  induction qs as [| q qs IH]; intros t r t' Hm.
  - simpl. intros E. injection E as <- <-. auto.
  - cbn [try_children]. unfold first_accepting. cbn [find].
    destruct (call_child q m t) as [[r1 t1] | |] eqn:Hcall; cbn [bind];
      try discriminate.
    apply call_child_Ok in Hcall as (c & c' & Hq & Hmc & ->).
    rewrite Hq. cbn [accepts on_opt].
    destruct (Hm _ _ _ _ Hq Hmc) as (Hr & Hsame).
    destruct (contains (boundaries c) p); subst r1.
    + intros E. injection E as <- <-. split; [reflexivity |]. eauto.
    + rewrite (Hsame eq_refl), (set_child_same _ _ Hq). apply IH. exact Hm.
Qed.

(** Whenever [Insert] returns on a node that keeps the invariants, it
    returns whether the region contains the point, and a false return
    leaves the node as it was. *)
Lemma Insert_Ok_contains fuel :
  forall (t : tree) d r t',
    wf cap t = true ->
    Insert cap fuel t d = Ok (r, t') ->
    r = contains (boundaries t) (point d) /\ (r = false -> t' = t).
Proof.
  induction fuel as [| fuel IH]; intros t d r t' Hw; [discriminate |].
  rewrite Insert_unfold.
  destruct (contains (boundaries t) (point d)) eqn:Hc; cbn [negb].
  2: { intros E. injection E as <- <-. auto. }
  destruct (length (points t) <? cap)%nat eqn:Hl.
  { intros E. injection E as <- <-. split; [reflexivity | discriminate]. }
  apply Nat.ltb_ge in Hl. intros Htry.
  destruct (descend_ready d t Hw Hl) as ((Hb0 & _ & Hw0 & _) & Hi0 & Hr0).
  set (t0 := if is_null (northWest t) then Subdivide t else t) in *.
  apply try_children_Ok_first with (p := point d) in Htry.
  2: { intros q c r0 c0 Hq Hm0. apply IH; [| exact Hm0].
       apply wf_child with q t0; auto. }
  destruct (first_accepting insert_order t0 (point d)) as [q |] eqn:Hfa.
  - destruct Htry as (-> & _). split; [reflexivity | discriminate].
  - exfalso. revert Hfa. apply first_accepting_cover; [exact Hr0 |].
    rewrite Hb0. exact Hc.
Qed.

(** ** Entries on one point: a chain of full buckets *)

Lemma Quadrant_eqb_eq (q q' : Quadrant) : Quadrant_eqb q q' = true <-> q = q'.
Proof. destruct q, q'; simpl; split; congruence. Qed.

Lemma lone_path_iff (p : Vector2) (t : tree) :
  lone_path p t = true <->
  (forall q, lone_at p t q = true)
  /\ (forall q c, child q t = Some c -> lone_path p c = true).
Proof.
  destruct t as [b ps nw ne se sw].
  change (lone_path p (mkPointQuadTree b ps nw ne se sw)) with
    (forallb (lone_at p (mkPointQuadTree b ps nw ne se sw)) insert_order
     && on_opt (lone_path p) true nw && on_opt (lone_path p) true ne
     && on_opt (lone_path p) true se && on_opt (lone_path p) true sw).
  rewrite !andb_true_iff, forallb_forall. split.
  - intros ((((Hat & Hnw) & Hne) & Hse) & Hsw). split.
    + intros q. apply Hat. destruct q; simpl; auto.
    + intros q c Hq. destruct q; simpl in Hq; subst; assumption.
  - intros (Hat & Hch). repeat split.
    + intros q _. apply Hat.
    + destruct nw as [c |]; [apply (Hch NW); reflexivity | reflexivity].
    + destruct ne as [c |]; [apply (Hch NE); reflexivity | reflexivity].
    + destruct se as [c |]; [apply (Hch SE); reflexivity | reflexivity].
    + destruct sw as [c |]; [apply (Hch SW); reflexivity | reflexivity].
Qed.

Lemma first_accepting_set_child qs q (t c c' : tree) p :
  child q t = Some c ->
  boundaries c' = boundaries c ->
  first_accepting qs (set_child q (Some c') t) p = first_accepting qs t p.
Proof.
  intros Hq Hb. unfold first_accepting.
  induction qs as [| q' qs IH]; [reflexivity |]. cbn [find].
  assert (E : accepts p (child q' (set_child q (Some c') t))
              = accepts p (child q' t)).
  { destruct (Quadrant_eqb q q') eqn:E.
    - apply Quadrant_eqb_eq in E. subst q'.
      rewrite child_set_child, Hq. simpl. rewrite Hb. reflexivity.
    - rewrite child_set_child_other; [reflexivity |].
      intros ->. destruct q'; discriminate. }
  rewrite E, IH. reflexivity.
Qed.

Lemma lone_path_set_child p q (t c c' : tree) :
  lone_path p t = true ->
  first_accepting insert_order t p = Some q ->
  child q t = Some c ->
  boundaries c' = boundaries c ->
  lone_path p c' = true ->
  lone_path p (set_child q (Some c') t) = true.
Proof.
  intros Hl Hfa Hq Hb Hc'. apply lone_path_iff in Hl as (Hat & Hch).
  apply lone_path_iff. split.
  - intros q'. unfold lone_at.
    rewrite first_accepting_set_child with (c := c) by assumption.
    rewrite Hfa.
    destruct (Quadrant_eqb q' q) eqn:E.
    + simpl. rewrite E. apply orb_true_r.
    + rewrite child_set_child_other.
      * specialize (Hat q'). unfold lone_at in Hat. rewrite Hfa in Hat.
        simpl in Hat. rewrite E, orb_false_r in Hat. rewrite Hat. reflexivity.
      * intros ->. destruct q'; discriminate.
  - intros q' c0 Hq'. destruct (Quadrant_eqb q q') eqn:E.
    + apply Quadrant_eqb_eq in E. subst q'.
      rewrite child_set_child in Hq'. injection Hq' as <-. exact Hc'.
    + rewrite child_set_child_other in Hq'.
      * apply (Hch q'). exact Hq'.
      * intros ->. destruct q'; discriminate.
Qed.

Lemma lone_path_leaf p b (ps : list entry) :
  lone_path p (mkPointQuadTree b ps None None None None) = true.
Proof. reflexivity. Qed.

Lemma lone_path_Subdivide p b (ps : list entry) :
  lone_path p (Subdivide (mkPointQuadTree b ps None None None None)) = true.
Proof. reflexivity. Qed.

(** Entries on the point [p] keep the tree on one path. *)
Lemma Insert_lone_path p fuel :
  forall (t : tree) d r t',
    wf cap t = true ->
    lone_path p t = true ->
    point d = p ->
    Insert cap fuel t d = Ok (r, t') ->
    lone_path p t' = true.
Proof.
  induction fuel as [| fuel IH]; intros t d r t' Hw Hl Hp; [discriminate |].
  rewrite Insert_unfold.
  destruct (contains (boundaries t) (point d)) eqn:Hc; cbn [negb].
  2: { intros E. injection E as <- <-. exact Hl. }
  destruct (length (points t) <? cap)%nat eqn:Hlen.
  { intros E. injection E as <- <-. apply Nat.ltb_lt in Hlen.
    destruct (wf_cases _ Hw) as [(b & ps & ->) | (b & ps & nw & ne & se & sw & ->)].
    - reflexivity.
    - apply wf_node_iff in Hw. simpl in Hlen. lia. }
  apply Nat.ltb_ge in Hlen. intros Htry.
  destruct (descend_ready d t Hw Hlen) as ((Hb0 & _ & Hw0 & _) & Hi0 & Hr0).
  assert (Hl0 : lone_path p
                  (if is_null (northWest t) then Subdivide t else t) = true).
  { destruct (is_null (northWest t)) eqn:Hn; [| exact Hl].
    destruct (wf_cases _ Hw) as [(b & ps & ->) | (b & ps & nw & ne & se & sw & ->)];
      [reflexivity | discriminate]. }
  set (t0 := if is_null (northWest t) then Subdivide t else t) in *.
  apply try_children_Ok_first with (p := point d) in Htry.
  2: { intros q c r0 c0 Hq Hm0. apply Insert_Ok_contains with fuel; [| exact Hm0].
       apply wf_child with q t0; auto. }
  rewrite Hp in Htry.
  destruct (first_accepting insert_order t0 p) as [q |] eqn:Hfa.
  - destruct Htry as (-> & c & c' & Hq & Hmc & ->).
    pose proof (wf_child _ _ Hw0 Hq) as Hwc.
    apply lone_path_set_child with c; auto.
    + apply Insert_preserves in Hmc as (B & _); [exact B | exact Hwc].
    + apply (IH c d true c'); auto.
      apply lone_path_iff in Hl0 as (_ & Hch). apply (Hch q). exact Hq.
  - destruct Htry as (_ & ->). exact Hl0.
Qed.

(** X1. On a node that keeps the invariants of [Insert], with a positive
    bucket size and a recursion budget beyond the depth, [Insert] returns,
    on leaves and internal nodes, full or not; what it returns is whether
    the node's region contains the point; a false return leaves the node
    as it was; and every other budget under which the call returns gives
    the same answer. *)
Theorem Insert_returns_whether_contained fuel (t : tree) (d : entry) :
  (0 < cap)%nat ->
  wf cap t = true ->
  (depth t + 2 <= fuel)%nat ->
  exists t',
    Insert cap fuel t d = Ok (contains (boundaries t) (point d), t')
    /\ (contains (boundaries t) (point d) = false -> t' = t)
    /\ forall fuel' r t'',
         Insert cap fuel' t d = Ok (r, t'') ->
         r = contains (boundaries t) (point d).
Proof.
  intros Hcap Hw Hf.
  destruct (Insert_total (fuel := fuel) t d Hcap Hw Hf) as (t' & H & Hs & _).
  exists t'. repeat split; auto.
  intros fuel' r t'' H'. apply Insert_Ok_contains in H'; [apply H' | exact Hw].
Qed.

(** X12. A query on an internal node whose region meets the range is the
    matching entries of the node's own bucket, in bucket order, followed
    by the results of the queries on the north-east, north-west,
    south-east and south-west children, in this order. *)
Theorem QueryRange_concatenates_children
    b (ps : list entry) (nw ne se sw : tree) range :
  shape (mkPointQuadTree b ps (Some nw) (Some ne) (Some se) (Some sw)) = true ->
  Intersects_AABB b range = true ->
  exists rne rnw rse rsw,
    QueryRange ne range = Ok (ne, rne)
    /\ QueryRange nw range = Ok (nw, rnw)
    /\ QueryRange se range = Ok (se, rse)
    /\ QueryRange sw range = Ok (sw, rsw)
    /\ QueryRange (mkPointQuadTree b ps (Some nw) (Some ne) (Some se) (Some sw))
         range =
       Ok (mkPointQuadTree b ps (Some nw) (Some ne) (Some se) (Some sw),
           filter (ContainsPoint range) ps ++ rne ++ rnw ++ rse ++ rsw).
Proof.
  intros Hs Hx.
  assert (Hkids : shape nw = true /\ shape ne = true
                  /\ shape se = true /\ shape sw = true).
  { simpl in Hs. bool_to_prop. tauto. }
  destruct Hkids as (Hnw & Hne & Hse & Hsw).
  exists (answer range ne), (answer range nw), (answer range se), (answer range sw).
  unfold QueryRange.
  rewrite !QueryRange_private_recursive_answer by assumption.
  cbn [answer on_opt app]. rewrite Hx. cbn [negb].
  repeat split.
Qed.

Lemma no_entries_length (c : tree) :
  no_entries (Some c) = true -> length (entries c) = 0%nat.
Proof.
  unfold no_entries. simpl. destruct (entries c); [reflexivity | discriminate].
Qed.

Lemma lone_path_count p (t : tree) :
  wf cap t = true ->
  lone_path p t = true ->
  (length (entries t) <= (depth t + 1) * cap)%nat.
Proof.
  induction t as [b ps nw ne se sw IHnw IHne IHse IHsw] using PointQuadTree_ind.
  intros Hw Hl.
  destruct (wf_cases _ Hw) as [(b' & ps' & E) | (b' & ps' & a & c & e & f & E)];
    injection E as -> -> -> -> -> ->.
  - apply wf_leaf_iff in Hw. simpl. rewrite app_nil_r. lia.
  - apply wf_node_iff in Hw as (Hlen & _ & Ha & Hc & He & Hf).
    apply lone_path_iff in Hl as (Hat & Hch).
    pose proof (Hat NW) as H1. pose proof (Hat NE) as H2.
    pose proof (Hat SE) as H3. pose proof (Hat SW) as H4.
    unfold lone_at in H1, H2, H3, H4.
    cbn [child northWest northEast southEast southWest] in H1, H2, H3, H4.
    simpl in IHnw, IHne, IHse, IHsw.
    specialize (IHnw Ha (Hch NW a eq_refl)).
    specialize (IHne Hc (Hch NE c eq_refl)).
    specialize (IHse He (Hch SE e eq_refl)).
    specialize (IHsw Hf (Hch SW f eq_refl)).
    cbn [entries on_opt]. rewrite !length_app, Hlen.
    change (depth (mkPointQuadTree b' ps' (Some a) (Some c) (Some e) (Some f)))
      with (S (Nat.max (Nat.max (depth a) (depth c))
                       (Nat.max (depth e) (depth f)))).
    pose proof (Nat.le_max_l (Nat.max (depth a) (depth c))
                  (Nat.max (depth e) (depth f))) as M1.
    pose proof (Nat.le_max_r (Nat.max (depth a) (depth c))
                  (Nat.max (depth e) (depth f))) as M2.
    pose proof (Nat.le_max_l (depth a) (depth c)) as M3.
    pose proof (Nat.le_max_r (depth a) (depth c)) as M4.
    pose proof (Nat.le_max_l (depth e) (depth f)) as M5.
    pose proof (Nat.le_max_r (depth e) (depth f)) as M6.
    set (M := Nat.max (Nat.max (depth a) (depth c))
                      (Nat.max (depth e) (depth f))) in *.
    destruct (first_accepting insert_order
                (mkPointQuadTree b' ps' (Some a) (Some c) (Some e) (Some f)) p)
      as [[| | |] |]; simpl in H1, H2, H3, H4;
      repeat match goal with
      | H : _ || false = true |- _ =>
        rewrite orb_false_r in H; apply no_entries_length in H; rewrite H
      | H : _ || true = true |- _ => clear H
      end;
      nia.
Qed.

Lemma Insert_all_lone_path p fuel :
  forall ds (t : tree) rs t',
    wf cap t = true ->
    lone_path p t = true ->
    forallb (fun d : entry => Vector2_eqb (point d) p) ds = true ->
    Insert_all cap fuel t ds = Ok (rs, t') ->
    lone_path p t' = true.
Proof.
  induction ds as [| d ds IH]; intros t rs t' Hw Hl Hp; simpl.
  - intros E. injection E as <- <-. exact Hl.
  - destruct (Insert cap fuel t d) as [[r t1] | |] eqn:H1; simpl; try discriminate.
    destruct (Insert_all cap fuel t1 ds) as [[rs1 t2] | |] eqn:H2; simpl;
      try discriminate.
    intros E. injection E as <- <-.
    simpl in Hp. apply andb_true_iff in Hp as (Hd & Hds).
    apply Vector2_eqb_eq in Hd.
    apply (IH t1 rs1 t2); auto.
    + apply Insert_preserves in H1 as (_ & _ & W & _); [exact W | exact Hw].
    + eapply Insert_lone_path; eauto.
Qed.

(** X10. The height is linear in the worst case (file header, lines
    16-18): entries that all sit on one point of the root's region are all
    stored and fill one bucket per level, so the depth of the tree is the
    number of entries divided by the bucket size, rounded up, minus one. *)
Theorem same_point_chain fuel b p (ds : list entry) :
  (0 < cap)%nat ->
  contains b p = true ->
  forallb (fun d : entry => Vector2_eqb (point d) p) ds = true ->
  (length ds + 2 <= fuel)%nat ->
  exists t,
    Insert_all cap fuel (PointQuadTree_new b) ds = Ok (map (fun _ => true) ds, t)
    /\ (depth t * cap <= length ds)%nat
    /\ (length ds <= (depth t + 1) * cap)%nat.
Proof.
  intros Hcap Hc Hp Hf.
  assert (Hin : forallb (ContainsPoint b) ds = true).
  { rewrite forallb_forall in Hp |- *. intros d Hd.
    specialize (Hp d Hd). apply Vector2_eqb_eq in Hp.
    unfold ContainsPoint. rewrite Hp. exact Hc. }
  destruct (Insert_all_total (fuel := fuel) ds (PointQuadTree_new b) Hcap)
    as (t & Hrun); [apply wf_new | simpl; lia |].
  simpl boundaries in Hrun. rewrite (map_contains_true _ _ Hin) in Hrun.
  destruct (built_invariants _ _ _ Hrun) as (_ & P & Hw & _ & _).
  rewrite accepted_all_true in P.
  exists t. split; [exact Hrun |].
  pose proof (wf_depth_entries _ Hw) as Hlo.
  assert (Hl : lone_path p t = true).
  { eapply Insert_all_lone_path; [apply wf_new | reflexivity | exact Hp | exact Hrun]. }
  pose proof (lone_path_count p _ Hw Hl) as Hhi.
  rewrite (Permutation_length P) in Hlo, Hhi. auto.
Qed.


End Properties.

(** ** The split on the concrete tree *)

(** C2. [Subdivide] does not halve: every child it creates keeps the
    half-extents of its parent.  On the root centred at (0,0) with
    half-extents (10,10) the four children have half-extents (10,10) and
    are centred on the corners of the root, at (-10,10), (10,10), (10,-10)
    and (-10,-10), where halving gives half-extents (5,5) and centres at
    distance 5.  The north-east child contains (15,15), a point outside
    the root, and the centre (0,0) of the root lies in all four
    children. *)
Theorem Subdivide_children_not_halved :
  (forall (T : Type) (t : PointQuadTree T) (q : Quadrant),
      exists c, child q (Subdivide t) = Some c
                /\ halfDimension (boundaries c) = halfDimension (boundaries t))
  /\ Subdivide Scenario.root =
    mkPointQuadTree Scenario.region []
      (Some (PointQuadTree_new (mkRect_AABB (mkVector2 (-10) 10) (mkVector2 10 10))))
      (Some (PointQuadTree_new (mkRect_AABB (mkVector2 10 10) (mkVector2 10 10))))
      (Some (PointQuadTree_new (mkRect_AABB (mkVector2 10 (-10)) (mkVector2 10 10))))
      (Some (PointQuadTree_new (mkRect_AABB (mkVector2 (-10) (-10)) (mkVector2 10 10))))
  /\ contains (child_region NE Scenario.region) (mkVector2 15 15) = true
  /\ contains Scenario.region (mkVector2 15 15) = false
  /\ forallb (fun q => contains (child_region q Scenario.region) (mkVector2 0 0))
       insert_order = true.
Proof.
  split.
  - intros T [b ps nw ne se sw] q. rewrite Subdivide_eq.
    destruct b as [c [hx hy]], q; simpl; eauto.
  - repeat split.
Qed.

(** ** The theorems at the concrete tree *)

Lemma QueryRange_returns_inserted_in_range_witness :
  (0 < Scenario.capacity)%nat
  /\ forallb (ContainsPoint Scenario.region)
       (Scenario.four ++ [Scenario.fifth]) = true
  /\ (length (Scenario.four ++ [Scenario.fifth]) + 2 <= 7)%nat
  /\ exists t res,
       Insert_all Scenario.capacity 7 (PointQuadTree_new Scenario.region)
         (Scenario.four ++ [Scenario.fifth]) =
       Ok (map (fun _ => true) (Scenario.four ++ [Scenario.fifth]), t)
       /\ QueryRange t (mkRect_AABB (mkVector2 4 4) (mkVector2 1 1)) = Ok (t, res)
       /\ Permutation res
            (filter (ContainsPoint (mkRect_AABB (mkVector2 4 4) (mkVector2 1 1)))
               (Scenario.four ++ [Scenario.fifth])).
Proof.
  split; [unfold Scenario.capacity; lia |].
  split; [reflexivity |].
  split; [simpl; lia |].
  apply (@QueryRange_returns_inserted_in_range nat Scenario.capacity 7
           Scenario.region (Scenario.four ++ [Scenario.fifth])
           (mkRect_AABB (mkVector2 4 4) (mkVector2 1 1))).
  - unfold Scenario.capacity; lia.
  - reflexivity.
  - simpl; lia.
Defined.

Lemma Insert_outside_region_rejected_witness :
  contains (boundaries Scenario.split_root) (point Scenario.outside) = false
  /\ Insert Scenario.capacity 1 Scenario.split_root Scenario.outside =
       Ok (false, Scenario.split_root).
Proof.
  split; [reflexivity |].
  apply (@Insert_outside_region_rejected nat Scenario.capacity 0
           Scenario.split_root Scenario.outside).
  reflexivity.
Defined.

Lemma Insert_overflow_splits_once_witness :
  exists q t,
    Insert_all Scenario.capacity 2 (PointQuadTree_new Scenario.region)
      Scenario.four =
      Ok (map (fun _ => true) Scenario.four,
          mkPointQuadTree Scenario.region Scenario.four None None None None)
    /\ Insert_all Scenario.capacity 2 (PointQuadTree_new Scenario.region)
         (Scenario.four ++ [Scenario.fifth]) =
      Ok (map (fun _ => true) (Scenario.four ++ [Scenario.fifth]), t)
    /\ first_accepting insert_order
         (Subdivide (mkPointQuadTree Scenario.region Scenario.four
                       None None None None))
         (point Scenario.fifth) = Some q
    /\ contains (child_region q Scenario.region) (point Scenario.fifth) = true
    /\ t = set_child q
             (Some (mkPointQuadTree (child_region q Scenario.region)
                      [Scenario.fifth] None None None None))
             (Subdivide (mkPointQuadTree Scenario.region Scenario.four
                           None None None None))
    /\ is_internal t = true
    /\ points t = Scenario.four
    /\ (forall q', exists c, child q' t = Some c /\ is_leaf c = true)
    /\ exists res,
         QueryRange t Scenario.region = Ok (t, res)
         /\ Permutation res (Scenario.four ++ [Scenario.fifth]).
Proof.
  apply (@Insert_overflow_splits_once nat Scenario.capacity 2
           Scenario.region Scenario.four Scenario.fifth).
  - unfold Scenario.capacity; lia.
  - reflexivity.
  - reflexivity.
  - lia.
Defined.

Lemma split_node_bucket_frozen_witness :
  points Scenario.split_root =
    firstn Scenario.capacity
      (accepted (Scenario.four ++ [Scenario.fifth])
                [true; true; true; true; true])
  /\ forall n, In n (nodes Scenario.split_root) ->
       (is_leaf n = true /\ (length (points n) <= Scenario.capacity)%nat
        \/ is_internal n = true /\ length (points n) = Scenario.capacity)
       /\ (is_internal n = true ->
           forall fuel' d r n',
             Insert Scenario.capacity fuel' n d = Ok (r, n') ->
             points n' = points n /\ is_internal n' = true).
Proof.
  apply (@split_node_bucket_frozen nat Scenario.capacity 3 Scenario.region
           (Scenario.four ++ [Scenario.fifth])
           [true; true; true; true; true] Scenario.split_root).
  reflexivity.
Defined.

Lemma entries_inside_node_region_witness :
  Insert_all Scenario.capacity 3 (PointQuadTree_new Scenario.region)
    (Scenario.four ++ [Scenario.fifth]) =
    Ok ([true; true; true; true; true], Scenario.split_root)
  /\ In Scenario.north_east_child (nodes Scenario.split_root)
  /\ In Scenario.fifth (entries Scenario.north_east_child)
  /\ contains (boundaries Scenario.north_east_child) (point Scenario.fifth) = true.
Proof.
  split; [reflexivity |].
  split; [simpl; auto |].
  split; [simpl; auto |].
  apply (@entries_inside_node_region nat Scenario.capacity 3 Scenario.region
           (Scenario.four ++ [Scenario.fifth])
           [true; true; true; true; true] Scenario.split_root).
  - reflexivity.
  - simpl; auto.
  - simpl; auto.
Defined.

Lemma Insert_delegates_to_first_child_witness :
  exists q c c',
    first_accepting insert_order Scenario.split_root
      (point (Scenario.entry_at 6 6 6)) = Some q
    /\ child q Scenario.split_root = Some c
    /\ Insert Scenario.capacity 2 c (Scenario.entry_at 6 6 6) = Ok (true, c')
    /\ boundaries c' = boundaries c
    /\ Permutation (entries c') (Scenario.entry_at 6 6 6 :: entries c)
    /\ Insert Scenario.capacity 3 Scenario.split_root (Scenario.entry_at 6 6 6) =
         Ok (true, set_child q (Some c') Scenario.split_root)
    /\ points (set_child q (Some c') Scenario.split_root) =
         points Scenario.split_root
    /\ forall q', q' <> q ->
         child q' (set_child q (Some c') Scenario.split_root) =
         child q' Scenario.split_root.
Proof.
  apply (@Insert_delegates_to_first_child nat Scenario.capacity 2
           Scenario.split_root (Scenario.entry_at 6 6 6)).
  - unfold Scenario.capacity; lia.
  - reflexivity.
  - reflexivity.
  - reflexivity.
  - simpl; lia.
Defined.

Lemma QueryRange_leaves_tree_unchanged_witness :
  exists res,
    QueryRange Scenario.split_root Scenario.region =
      Ok (Scenario.split_root, res)
    /\ forall acc,
         QueryRange_private_recursive Scenario.split_root Scenario.region acc =
           Ok (Scenario.split_root, acc ++ res).
Proof.
  apply (@QueryRange_leaves_tree_unchanged nat Scenario.split_root
           Scenario.region).
  reflexivity.
Defined.


Lemma Insert_fallback_unreachable_witness :
  (exists q, In q insert_order
             /\ contains (child_region q (boundaries Scenario.split_root))
                  (point (Scenario.entry_at 0 0 7)) = true)
  /\ (exists q c c', child q Scenario.split_root = Some c
                     /\ Insert Scenario.capacity 2 c (Scenario.entry_at 0 0 7) =
                          Ok (true, c'))
  /\ exists t', Insert Scenario.capacity 3 Scenario.split_root
                  (Scenario.entry_at 0 0 7) = Ok (true, t').
Proof.
  apply (@Insert_fallback_unreachable nat Scenario.capacity 2
           Scenario.split_root (Scenario.entry_at 0 0 7)).
  - unfold Scenario.capacity; lia.
  - reflexivity.
  - reflexivity.
  - reflexivity.
  - simpl; lia.
Defined.

(** ** The bucket size zero *)

(** X5. With [QT_NODE_MAX_CAPACITY] equal to zero, [Insert] of a point
    inside the region of a node never returns: the bucket never has room,
    the node splits, one child contains the point, and the call on that
    child is in the same position, so every recursion budget runs out. *)
Theorem Insert_zero_capacity_never_returns
    (T : Type) fuel (t : PointQuadTree T) (d : Data_Node T) :
  wf 0 t = true ->
  contains (boundaries t) (point d) = true ->
  Insert 0 fuel t d = OutOfFuel.
Proof.
  intros Hw Hc. apply Insert_exhausts_fuel; auto.
Qed.

(** ** The further properties at the concrete tree *)

Lemma Insert_returns_whether_contained_witness :
  exists t',
    Insert Scenario.capacity 3 Scenario.split_root (Scenario.entry_at 6 6 6) =
      Ok (contains (boundaries Scenario.split_root)
            (point (Scenario.entry_at 6 6 6)), t')
    /\ (contains (boundaries Scenario.split_root)
          (point (Scenario.entry_at 6 6 6)) = false ->
        t' = Scenario.split_root)
    /\ forall fuel' r t'',
         Insert Scenario.capacity fuel' Scenario.split_root
           (Scenario.entry_at 6 6 6) = Ok (r, t'') ->
         r = contains (boundaries Scenario.split_root)
               (point (Scenario.entry_at 6 6 6)).
Proof.
  apply (@Insert_returns_whether_contained nat Scenario.capacity 3
           Scenario.split_root (Scenario.entry_at 6 6 6)).
  - unfold Scenario.capacity; lia.
  - reflexivity.
  - simpl; lia.
Defined.

Lemma Insert_stores_iff_true_witness :
  boundaries Scenario.single_root = boundaries Scenario.root
  /\ Permutation (entries Scenario.single_root)
       (Scenario.entry_at 1 1 1 :: entries Scenario.root)
  /\ length (entries Scenario.single_root) =
       (length (entries Scenario.root) + 1)%nat.
Proof.
  apply (@Insert_stores_iff_true nat Scenario.capacity 1 Scenario.root
           (Scenario.entry_at 1 1 1) true Scenario.single_root).
  - reflexivity.
  - reflexivity.
Defined.

Lemma Insert_then_QueryRange_witness :
  exists res res',
    QueryRange Scenario.root Scenario.degenerate = Ok (Scenario.root, res)
    /\ QueryRange Scenario.single_root Scenario.degenerate =
         Ok (Scenario.single_root, res')
    /\ Permutation res'
         ((if true && ContainsPoint Scenario.degenerate (Scenario.entry_at 1 1 1)
           then [Scenario.entry_at 1 1 1] else []) ++ res).
Proof.
  apply (@Insert_then_QueryRange nat Scenario.capacity 1 Scenario.root
           (Scenario.entry_at 1 1 1) true Scenario.single_root
           Scenario.degenerate).
  - reflexivity.
  - reflexivity.
  - reflexivity.
Defined.

Lemma Insert_never_dereferences_null_witness :
  Insert Scenario.capacity 1 Scenario.split_root (Scenario.entry_at 6 6 6)
  <> NullDeref.
Proof.
  apply (@Insert_never_dereferences_null nat Scenario.capacity 1
           Scenario.split_root (Scenario.entry_at 6 6 6)).
  reflexivity.
Defined.

Lemma Insert_zero_capacity_never_returns_witness :
  Insert 0 5 Scenario.root (Scenario.entry_at 1 1 1) = OutOfFuel.
Proof.
  apply (@Insert_zero_capacity_never_returns nat 5 Scenario.root
           (Scenario.entry_at 1 1 1)).
  - reflexivity.
  - reflexivity.
Defined.

Lemma depth_bounded_by_stored_witness :
  (depth Scenario.split_root * Scenario.capacity <=
   length (accepted (Scenario.four ++ [Scenario.fifth])
             [true; true; true; true; true]))%nat
  /\ (depth Scenario.split_root * Scenario.capacity <=
      length (Scenario.four ++ [Scenario.fifth]))%nat.
Proof.
  apply (@depth_bounded_by_stored nat Scenario.capacity 3 Scenario.region
           (Scenario.four ++ [Scenario.fifth])
           [true; true; true; true; true] Scenario.split_root).
  reflexivity.
Defined.

Lemma nodes_keep_root_halfDimension_witness :
  In Scenario.north_east_child (nodes Scenario.split_root)
  /\ halfDimension (boundaries Scenario.north_east_child) =
       halfDimension Scenario.region.
Proof.
  split; [simpl; auto |].
  apply (@nodes_keep_root_halfDimension nat Scenario.capacity 3 Scenario.region
           (Scenario.four ++ [Scenario.fifth])
           [true; true; true; true; true] Scenario.split_root).
  - reflexivity.
  - simpl; auto.
Defined.

Lemma QueryRange_unsplit_insertion_order_witness :
  exists t,
    Insert_all Scenario.capacity 1 (PointQuadTree_new Scenario.region)
      Scenario.four = Ok (map (fun _ => true) Scenario.four, t)
    /\ is_leaf t = true
    /\ QueryRange t (mkRect_AABB (mkVector2 3 3) (mkVector2 1 1)) =
         Ok (t, filter (ContainsPoint (mkRect_AABB (mkVector2 3 3) (mkVector2 1 1)))
                  Scenario.four).
Proof.
  apply (@QueryRange_unsplit_insertion_order nat Scenario.capacity 0
           Scenario.region Scenario.four
           (mkRect_AABB (mkVector2 3 3) (mkVector2 1 1))).
  - simpl; unfold Scenario.capacity; lia.
  - reflexivity.
Defined.

Lemma Insert_all_drops_outside_witness :
  exists t res,
    Insert_all Scenario.capacity 8 (PointQuadTree_new Scenario.region)
      (Scenario.four ++ [Scenario.outside; Scenario.fifth]) =
      Ok (map (fun d => contains Scenario.region (point d))
            (Scenario.four ++ [Scenario.outside; Scenario.fifth]), t)
    /\ QueryRange t Scenario.region = Ok (t, res)
    /\ Permutation res
         (filter (ContainsPoint Scenario.region)
            (filter (ContainsPoint Scenario.region)
               (Scenario.four ++ [Scenario.outside; Scenario.fifth]))).
Proof.
  apply (@Insert_all_drops_outside nat Scenario.capacity 8 Scenario.region
           (Scenario.four ++ [Scenario.outside; Scenario.fifth])
           Scenario.region).
  - unfold Scenario.capacity; lia.
  - simpl; lia.
Defined.

Lemma same_point_chain_witness :
  exists t,
    Insert_all Scenario.capacity 11 (PointQuadTree_new Scenario.region)
      (map (Scenario.entry_at 1 1) [1; 2; 3; 4; 5; 6; 7; 8; 9]%nat) =
      Ok (map (fun _ => true)
            (map (Scenario.entry_at 1 1) [1; 2; 3; 4; 5; 6; 7; 8; 9]%nat), t)
    /\ (depth t * Scenario.capacity <=
        length (map (Scenario.entry_at 1 1) [1; 2; 3; 4; 5; 6; 7; 8; 9]%nat))%nat
    /\ (length (map (Scenario.entry_at 1 1) [1; 2; 3; 4; 5; 6; 7; 8; 9]%nat) <=
        (depth t + 1) * Scenario.capacity)%nat.
Proof.
  apply (@same_point_chain nat Scenario.capacity 11 Scenario.region
           (mkVector2 1 1)
           (map (Scenario.entry_at 1 1) [1; 2; 3; 4; 5; 6; 7; 8; 9]%nat)).
  - unfold Scenario.capacity; lia.
  - reflexivity.
  - reflexivity.
  - simpl; lia.
Defined.


Lemma QueryRange_concatenates_children_witness :
  exists rne rnw rse rsw,
    QueryRange Scenario.north_east_child Scenario.region =
      Ok (Scenario.north_east_child, rne)
    /\ QueryRange (PointQuadTree_new (child_region NW Scenario.region))
         Scenario.region =
       Ok (PointQuadTree_new (child_region NW Scenario.region), rnw)
    /\ QueryRange (PointQuadTree_new (child_region SE Scenario.region))
         Scenario.region =
       Ok (PointQuadTree_new (child_region SE Scenario.region), rse)
    /\ QueryRange (PointQuadTree_new (child_region SW Scenario.region))
         Scenario.region =
       Ok (PointQuadTree_new (child_region SW Scenario.region), rsw)
    /\ QueryRange Scenario.split_root Scenario.region =
       Ok (Scenario.split_root,
           filter (ContainsPoint Scenario.region) Scenario.four
           ++ rne ++ rnw ++ rse ++ rsw).
Proof.
  apply (@QueryRange_concatenates_children nat Scenario.region Scenario.four
           (PointQuadTree_new (child_region NW Scenario.region))
           Scenario.north_east_child
           (PointQuadTree_new (child_region SE Scenario.region))
           (PointQuadTree_new (child_region SW Scenario.region))
           Scenario.region).
  - reflexivity.
  - reflexivity.
Defined.
